(** * neat-catch: a shallow embedding of [src/index.ts]

    The library turns throwing / rejecting control flow into [data, error]
    tuples.  This development embeds its four core operations ([neatCatch],
    [createNeatWrapper], [neatCatchAll], [neatCatchRetry]) together with the
    private helper [transformError], and states the properties of the
    specification over that embedding.

    Modelling conventions.
    - JavaScript values are the inductive [Value]; numbers are modelled as
      integers ([Z]), so NaN, infinities and rounding are outside the model.
      [VPromise] is an instance of the built-in Promise, [VThenable] an
      object from elsewhere that may or may not expose [then] and [catch];
      function values are not part of [Value].
    - A call that may throw has type [Completion A]; [try_catch] is the
      try / catch statement.
    - An awaitable is modelled by the way it settles ([Awaited]): fulfilled,
      rejected, or never settling ([Pending]).  Objects that pass the
      awaitable test of [neatCatch] are assumed to follow the promise
      protocol when their [then] / [catch] members are called.
    - Operations are stateful: they read and update a world of type [W].
      Error transformers and retry predicates are functions of their
      arguments that may throw. *)

From Stdlib Require Import ZArith.
From stdpp Require Import base option list strings pretty.

Local Open Scope Z_scope.

(** ** Values *)

Inductive Awaited (A E : Type) : Type :=
  | Fulfilled (a : A)
  | Rejected (reason : E)
  | Pending.
Arguments Fulfilled {A E} a.
Arguments Rejected {A E} reason.
Arguments Pending {A E}.

#[local] Set Warnings "-register-all".

Inductive Value : Type :=
  | VUndefined
  | VNull
  | VBool (b : bool)
  | VNum (n : Z)
  | VStr (s : string)
  | VError (message : string)
  | VAggregateError (errors : list Value) (message : string)
  | VObject (fields : list (string * Value))
  | VPromise (st : Awaited Value Value)
  | VThenable (has_then has_catch : bool) (st : Awaited Value Value).

(** The result of [typeof]. *)
Inductive JsType : Type :=
  | TUndefined | TObject | TBoolean | TNumber | TString | TFunction.

Definition JsType_eqb (a b : JsType) : bool :=
  match a, b with
  | TUndefined, TUndefined | TObject, TObject | TBoolean, TBoolean
  | TNumber, TNumber | TString, TString | TFunction, TFunction => true
  | _, _ => false
  end.

Definition typeof (v : Value) : JsType :=
  match v with
  | VUndefined => TUndefined
  | VNull => TObject
  | VBool _ => TBoolean
  | VNum _ => TNumber
  | VStr _ => TString
  | VError _ | VAggregateError _ _ | VObject _ | VPromise _
  | VThenable _ _ _ => TObject
  end.

(** ToBoolean: what [if (v)] and [!v] look at. *)
Definition truthy (v : Value) : bool :=
  match v with
  | VUndefined | VNull => false
  | VBool b => b
  | VNum n => negb (n =? 0)
  | VStr s => negb (String.eqb s "")
  | _ => true
  end.

(** [v != null] (loose inequality: false for both null and undefined). *)
Definition not_nullish (v : Value) : bool :=
  match v with
  | VUndefined | VNull => false
  | _ => true
  end.

Definition instanceof_Promise (v : Value) : bool :=
  match v with
  | VPromise _ => true
  | _ => false
  end.

Fixpoint field_lookup (fields : list (string * Value)) (name : string)
  : option Value :=
  match fields with
  | [] => None
  | (k, v) :: rest => if String.eqb k name then Some v else field_lookup rest name
  end.

(** [typeof v.name] for the members the library inspects.  A built-in
    promise inherits [then] and [catch] from its prototype; a foreign object
    has them when it says so; data objects answer from their fields. *)
Definition typeof_member (v : Value) (name : string) : JsType :=
  match v with
  | VPromise _ =>
      if String.eqb name "then" || String.eqb name "catch"
      then TFunction else TUndefined
  | VThenable has_then has_catch _ =>
      if String.eqb name "then" then (if has_then then TFunction else TUndefined)
      else if String.eqb name "catch" then (if has_catch then TFunction else TUndefined)
      else TUndefined
  | VObject fields =>
      match field_lookup fields name with
      | Some x => typeof x
      | None => TUndefined
      end
  | _ => TUndefined
  end.

(** How an awaitable value settles once [then] is called on it. *)
Definition settlement (v : Value) : Awaited Value Value :=
  match v with
  | VPromise st => st
  | VThenable _ _ st => st
  | _ => Pending
  end.

(** ** Completions: calls that may throw *)

Inductive Completion (A : Type) : Type :=
  | Returns (a : A)
  | Throws (thrown : Value).
Arguments Returns {A} a.
Arguments Throws {A} thrown.

#[global] Instance Completion_ret : MRet Completion := fun _ a => Returns a.
#[global] Instance Completion_bind : MBind Completion := fun _ _ k c =>
  match c with
  | Returns a => k a
  | Throws e => Throws e
  end.

(** try { body } catch (e) { handler e } *)
Definition try_catch {A} (body : Completion A) (handler : Value → Completion A)
  : Completion A :=
  match body with
  | Returns a => Returns a
  | Throws e => handler e
  end.

(** [p.then(f)] and [p.catch(h)] on a promise that settles as [p]. *)
Definition promise_then {A B} (p : Awaited A Value) (f : A → Completion B)
  : Awaited B Value :=
  match p with
  | Fulfilled a =>
      match f a with
      | Returns b => Fulfilled b
      | Throws e => Rejected e
      end
  | Rejected e => Rejected e
  | Pending => Pending
  end.

Definition promise_catch {A} (p : Awaited A Value) (h : Value → Completion A)
  : Awaited A Value :=
  match p with
  | Fulfilled a => Fulfilled a
  | Rejected e =>
      match h e with
      | Returns b => Fulfilled b
      | Throws e' => Rejected e'
      end
  | Pending => Pending
  end.

(** The body of an [async] function: a throw rejects the returned promise. *)
Definition async_return {A} (c : Completion A) : Awaited A Value :=
  match c with
  | Returns a => Fulfilled a
  | Throws e => Rejected e
  end.

(** ** transformError *)

Definition Transformer : Type := Value → Completion Value.

Definition transform_failure_message : string :=
  "Error transforming error. Both errors are in the 'errors' property.".

Definition transformError (error : Value) (transformer : option Transformer)
  : Completion Value :=
  try_catch
    (match transformer with
     | Some t => t error
     | None => Returns error
     end)
    (fun transformError =>
       Returns (VAggregateError [error; transformError] transform_failure_message)).

(** ** neatCatch *)

(** The tuple [[data, error]]. *)
Definition Outcome : Type := (Value * Value)%type.

(** What [neatCatch] hands back: the tuple itself, or a promise of it. *)
Inductive NeatResult : Type :=
  | Sync (o : Outcome)
  | Async (p : Awaited Outcome Value).

Definition is_awaitable (result : Value) : bool :=
  instanceof_Promise result
  || (not_nullish result
      && (JsType_eqb (typeof result) TObject || JsType_eqb (typeof result) TFunction)
      && JsType_eqb (typeof_member result "then") TFunction
      && JsType_eqb (typeof_member result "catch") TFunction).

(** ** Arrays with holes

    [results] and [errors] in [neatCatchAll] start empty and are written by
    index.  Writing past the end of a JavaScript array extends it and leaves
    holes in between; [None] is a hole. *)

Abbreviation JsArray := (list (option Value)).

(** [arr[index] = v] *)
Definition array_set (arr : JsArray) (index : nat) (v : Value) : JsArray :=
  <[index := Some v]> (arr ++ replicate (S index - length arr) None).

(** The own element at [index], if there is one. *)
Definition array_get (arr : JsArray) (index : nat) : option Value :=
  mjoin (arr !! index).

(** [arr.length ? arr : null] *)
Definition array_or_null (arr : JsArray) : option JsArray :=
  if (length arr =? 0)%nat then None else Some arr.

(** [arr?.[index]]: the own element at [index] of an array that may be
    null. *)
Definition slot (arr : option JsArray) (index : nat) : option Value :=
  arr ≫= fun a => array_get a index.

(** One entry of the array [Promise.allSettled] resolves with. *)
Inductive SettledResult : Type :=
  | SFulfilled (value : Outcome)
  | SRejected (reason : Value).

Record BatchOutcome : Type := {
  results : option JsArray;
  errors : option JsArray
}.

(** [await p; k] inside the body of an async function. *)
Definition await {A B} (p : Awaited A Value) (k : A → Awaited B Value)
  : Awaited B Value :=
  match p with
  | Fulfilled a => k a
  | Rejected e => Rejected e
  | Pending => Pending
  end.

(** What awaiting the value returned by [neatCatch] gives: a tuple is its
    own result, a promise is awaited. *)
Definition eventual (r : NeatResult) : Awaited Outcome Value :=
  match r with
  | Sync o => Fulfilled o
  | Async p => p
  end.

(** [Promise.allSettled]: every input that settles is recorded at its own
    index, whenever it settles.  [order] lists the indices in the order in
    which the inputs settle; the returned promise is fulfilled once every
    slot is recorded. *)
Definition settle_one (r : NeatResult) : option SettledResult :=
  match eventual r with
  | Fulfilled o => Some (SFulfilled o)
  | Rejected e => Some (SRejected e)
  | Pending => None
  end.

Definition allSettled_record (promises : list NeatResult)
    (values : list (option SettledResult)) (index : nat)
  : list (option SettledResult) :=
  match promises !! index ≫= settle_one with
  | Some s => <[index := Some s]> values
  | None => values
  end.

Definition allSettled (order : list nat) (promises : list NeatResult)
  : Awaited (list SettledResult) Value :=
  let values :=
    foldl (allSettled_record promises) (replicate (length promises) None) order in
  match mapM id values with
  | Some settled => Fulfilled settled
  | None => Pending
  end.

(** ** Retry options *)

Inductive Backoff : Type := Linear | Exponential.

Record NeatCatchRetryOptions : Type := {
  maxRetries : option Z;
  delay : option Z;
  backoff : option Backoff;
  errorTransformer : option (Value → Z → Completion Value);
  shouldRetry : option (Value → Z → Completion bool)
}.

(** What a run of [neatCatchRetry] does besides computing its result. *)
Inductive Event : Type :=
  | EvInvoke
  | EvLog (attempt : Z) (isLastAttempt shouldContinue : bool) (nextDelay : Z)
  | EvWait (ms : Z).

Definition is_invoke (ev : Event) : bool :=
  match ev with EvInvoke => true | _ => false end.

Definition wait_of (ev : Event) : option Z :=
  match ev with EvWait ms => Some ms | _ => None end.

(** The wait before the next attempt, as the value of the expression in
    exact integer arithmetic.  The program computes it in doubles: the two
    agree as long as the product is a whole number below 2^53. *)
Definition nextDelay (backoff : Backoff) (delay attempt : Z) : Z :=
  match backoff with
  | Exponential => delay * 2 ^ (attempt - 1)
  | Linear => delay * attempt
  end.

Section Core.

Context {W : Type}.

(** A zero-argument operation: it runs against the world, returns or throws,
    and leaves the world updated. *)
Definition Op : Type := W → Completion Value * W.

Definition handleError (errorTransformer : option Transformer) (error : Value)
  : Completion Outcome :=
  e ← transformError error errorTransformer; Returns (VNull, e).

Definition neatCatch (fn : Op) (errorTransformer : option Transformer) (w : W)
  : Completion NeatResult * W :=
  let '(called, w') := fn w in
  (try_catch
     (result ← called;
      if is_awaitable result then
        Returns (Async
          (promise_catch
             (promise_then (settlement result) (fun data => Returns (data, VNull)))
             (handleError errorTransformer)))
      else Returns (Sync (result, VNull)))
     (fun error => o ← handleError errorTransformer error; Returns (Sync o)),
   w').

(** ** createNeatWrapper *)

Definition createNeatWrapper {Args : Type} (fn : Args → Op)
    (errorTransformer : option Transformer)
  : Args → W → Completion NeatResult * W :=
  fun args => neatCatch (fun w => fn args w) errorTransformer.

(** ** neatCatchAll *)

(** [operations.map((op) => neatCatch(op, errorTransformer))]: the
    operations are started one after the other, in index order. *)
Fixpoint start_all (operations : list Op) (errorTransformer : option Transformer)
    (w : W) : Completion (list NeatResult) * W :=
  match operations with
  | [] => (Returns [], w)
  | op :: rest =>
      match neatCatch op errorTransformer w with
      | (Returns r, w') =>
          let '(started, w'') := start_all rest errorTransformer w' in
          (rs ← started; Returns (r :: rs), w'')
      | (Throws e, w') => (Throws e, w')
      end
  end.

(** The body of the [forEach] callback. *)
Definition collect_step (errorTransformer : option Transformer)
    (acc : JsArray * JsArray) (index : nat) (result : SettledResult)
  : Completion (JsArray * JsArray) :=
  let '(results, errors) := acc in
  match result with
  | SFulfilled (data, error) =>
      if truthy error then Returns (results, array_set errors index error)
      else Returns (array_set results index data, errors)
  | SRejected reason =>
      e ← transformError reason errorTransformer;
      Returns (results, array_set errors index e)
  end.

Fixpoint forEach_from (index : nat) (settled : list SettledResult)
    (errorTransformer : option Transformer) (acc : JsArray * JsArray)
  : Completion (JsArray * JsArray) :=
  match settled with
  | [] => Returns acc
  | result :: rest =>
      acc' ← collect_step errorTransformer acc index result;
      forEach_from (S index) rest errorTransformer acc'
  end.

Definition neatCatchAll (operations : list Op)
    (errorTransformer : option Transformer) (order : list nat) (w : W)
  : Awaited BatchOutcome Value * W :=
  let '(started, w') := start_all operations errorTransformer w in
  (await (async_return started) (fun promises =>
   await (allSettled order promises) (fun settled =>
   async_return
     (acc ← forEach_from 0 settled errorTransformer ([], []);
      Returns {| results := array_or_null acc.1; errors := array_or_null acc.2 |}))),
   w').

(** ** neatCatchRetry *)

Record RetryRun : Type := {
  settled : Awaited Outcome Value;
  events : list Event;
  world : W
}.

Definition more_events (evs : list Event) (run : RetryRun) : RetryRun :=
  {| settled := settled run; events := evs ++ events run; world := world run |}.

Section Retry.

Variable fn : Op.
Variables (maxRetries_ delay_ : Z) (backoff_ : Backoff).
Variable errorTransformer_ : option (Value → Z → Completion Value).
Variable shouldRetry_ : Value → Z → Completion bool.

(** The [for] loop.  [fuel] bounds the number of times the loop condition is
    evaluated; [None] means the bound was too small. *)
Fixpoint retry_loop (fuel : nat) (attempt : Z) (w : W) : option RetryRun :=
  match fuel with
  | O => None
  | S fuel' =>
      if attempt <=? maxRetries_ + 1 then
        let '(called, w') := neatCatch fn None w in
        match await (async_return called) eventual with
        | Fulfilled (data, error) =>
            if negb (truthy error) then
              Some {| settled := Fulfilled (data, VNull);
                      events := [EvInvoke]; world := w' |}
            else
              let isLastAttempt := attempt =? maxRetries_ + 1 in
              match (if negb isLastAttempt then shouldRetry_ error attempt
                     else Returns false) with
              | Throws e =>
                  Some {| settled := Rejected e; events := [EvInvoke]; world := w' |}
              | Returns shouldContinue =>
                  if negb shouldContinue then
                    Some {| settled :=
                              async_return
                                (transformedError ←
                                   match errorTransformer_ with
                                   | Some et =>
                                       transformError error
                                         (Some (fun e => et e attempt))
                                   | None => Returns error
                                   end;
                                 Returns (VNull, transformedError));
                            events := [EvInvoke]; world := w' |}
                  else
                    let nextDelay := nextDelay backoff_ delay_ attempt in
                    more_events
                      [EvInvoke;
                       EvLog attempt isLastAttempt shouldContinue nextDelay;
                       EvWait nextDelay]
                      <$> retry_loop fuel' (attempt + 1) w'
              end
        | Rejected e =>
            Some {| settled := Rejected e; events := [EvInvoke]; world := w' |}
        | Pending =>
            Some {| settled := Pending; events := [EvInvoke]; world := w' |}
        end
      else
        Some {| settled := Fulfilled (VNull, VError "Unexpected retry loop exit");
                events := []; world := w |}
  end.

End Retry.

Definition neatCatchRetry (fn : Op) (options : NeatCatchRetryOptions) (w : W)
  : option RetryRun :=
  let maxRetries := default 3 (maxRetries options) in
  let delay := default 1000 (delay options) in
  let backoff := default Exponential (backoff options) in
  let errorTransformer := errorTransformer options in
  let shouldRetry := default (fun _ _ => Returns true) (shouldRetry options) in
  retry_loop fn maxRetries delay backoff errorTransformer shouldRetry
    (S (Z.to_nat (maxRetries + 1))) 1 w.

Definition invocations (run : RetryRun) : nat :=
  length (List.filter is_invoke (events run)).

Definition waits (run : RetryRun) : list Z :=
  omap wait_of (events run).

End Core.

Arguments Op W : clear implicits.
Arguments RetryRun W : clear implicits.

(** * Vocabulary of the properties *)

(** ** What happened to an operation

    An operation [succeeded] when it returned a plain value or an awaitable
    that fulfils, it [failed] when it threw or its awaitable rejected. *)

Inductive Fate : Type :=
  | Succeeded (v : Value)
  | Failed (e : Value)
  | Hangs.

Definition fate (called : Completion Value) : Fate :=
  match called with
  | Throws e => Failed e
  | Returns r =>
      if is_awaitable r then
        match settlement r with
        | Fulfilled v => Succeeded v
        | Rejected e => Failed e
        | Pending => Hangs
        end
      else Succeeded r
  end.

(** The error a failure is reported as: the transformer's result, the
    aggregate when the transformer throws, the failure itself without a
    transformer. *)
Definition transformed (error : Value) (transformer : option Transformer) : Value :=
  match transformer with
  | None => error
  | Some t =>
      match t error with
      | Returns v => v
      | Throws te => VAggregateError [error; te] transform_failure_message
      end
  end.

(** The tuple an operation with the given fate ends up as. *)
Definition fate_outcome (transformer : option Transformer) (f : Fate)
  : Awaited Outcome Value :=
  match f with
  | Succeeded v => Fulfilled (v, VNull)
  | Failed e => Fulfilled (VNull, transformed e transformer)
  | Hangs => Pending
  end.

(** The fates of a batch of operations started one after the other. *)
Fixpoint fates {W : Type} (operations : list (Op W)) (w : W) : list Fate :=
  match operations with
  | [] => []
  | op :: rest => let '(called, w') := op w in fate called :: fates rest w'
  end.

(** What the [forEach] callback of [neatCatchAll] writes for one settled
    entry: the value it puts into [results] and the value it puts into
    [errors], if any. *)
Definition written (transformer : option Transformer) (s : SettledResult)
  : option Value * option Value :=
  match s with
  | SFulfilled (data, error) =>
      if truthy error then (None, Some error) else (Some data, None)
  | SRejected reason => (None, Some (transformed reason transformer))
  end.

(** The same, read off the fate of the operation. *)
Definition results_slot (transformer : option Transformer) (f : Fate)
  : option Value :=
  match f with
  | Succeeded v => Some v
  | Failed e => if truthy (transformed e transformer) then None else Some VNull
  | Hangs => None
  end.

Definition errors_slot (transformer : option Transformer) (f : Fate)
  : option Value :=
  match f with
  | Failed e =>
      if truthy (transformed e transformer)
      then Some (transformed e transformer) else None
  | _ => None
  end.

(** The error [neatCatchRetry] reports when it gives up after [attempt]. *)
Definition reported (errorTransformer : option (Value → Z → Completion Value))
    (error : Value) (attempt : Z) : Value :=
  match errorTransformer with
  | Some et => transformed error (Some (fun e => et e attempt))
  | None => error
  end.

(** A promise of a tuple that contains every failure of [fn]: it does not
    reject, and it stays pending only if some attempt of [fn] hangs. *)
Definition contained {W : Type} (fn : Op W) (p : Awaited Outcome Value) : Prop :=
  match p with
  | Fulfilled _ => True
  | Rejected _ => False
  | Pending => ∃ w0, fate (fn w0).1 = Hangs
  end.

(** What a failed attempt that is retried leaves in the run. *)
Definition retry_round (backoff : Backoff) (delay : Z) (attempt : Z) : list Event :=
  [EvInvoke;
   EvLog attempt false true (nextDelay backoff delay attempt);
   EvWait (nextDelay backoff delay attempt)].

(** ** Concrete inputs *)

(** Operations used as concrete inputs. *)
Definition returning (v : Value) : Op unit := fun w => (Returns v, w).
Definition throwing (e : Value) : Op unit := fun w => (Throws e, w).
Definition resolving (v : Value) : Op unit :=
  fun w => (Returns (VPromise (Fulfilled v)), w).
Definition rejecting (e : Value) : Op unit :=
  fun w => (Returns (VPromise (Rejected e)), w).

(** A mock in the style of the test suite: the world counts the calls, the
    first calls reject with the given failures in turn, later calls resolve
    with ["success"]. *)
Definition mock_rejecting (failures : list Value) : Op nat :=
  fun calls =>
    (Returns (VPromise (match failures !! calls with
                        | Some e => Rejected e
                        | None => Fulfilled (VStr "success")
                        end)),
     S calls).

Definition is_retryable (e : Value) : bool :=
  match e with
  | VError message => String.eqb message "retryable"
  | _ => false
  end.

(** Every index below the length of a concrete batch occurs in a concrete
    settling order. *)
Ltac covered :=
  let i := fresh "i" in
  let Hi := fresh "Hi" in
  intros i Hi; simpl in Hi;
  repeat (destruct i as [|i]; [solve [repeat constructor]|]);
  lia.

(** ** errorTransformers

    The canned transformers that need nothing but the value they are given:
    [toString], [toSimpleError] and [withContext].  ([toObject],
    [forLogging], [withTimestamp] and [fetchError] read the name, stack and
    cause of an error, the clock, the process environment or the class of a
    TypeError, none of which [Value] carries.) *)

(** [v instanceof Error]; an AggregateError is an Error. *)
Definition instanceof_Error (v : Value) : bool :=
  match v with
  | VError _ | VAggregateError _ _ => true
  | _ => false
  end.

(** [v.message] of an Error instance. *)
Definition error_message (v : Value) : string :=
  match v with
  | VError message | VAggregateError _ message => message
  | _ => ""
  end.

(** [Error.prototype.toString]: the name, the message, or both. *)
Definition error_to_string (name message : string) : string :=
  if String.eqb message "" then name
  else if String.eqb name "" then message
  else name +:+ ": " +:+ message.

(** The value of [error.message] when
    [error && typeof error === "object" && "message" in error &&
     typeof error.message === "string"] holds. *)
Definition error_like_message (error : Value) : option string :=
  match error with
  | VError message | VAggregateError _ message => Some message
  | VObject fields =>
      match field_lookup fields "message" with
      | Some (VStr message) => Some message
      | _ => None
      end
  | _ => None
  end.

(** [obj[key] = v] on the fields of an object: an existing key keeps its
    place, a new one goes to the end. *)
Fixpoint object_put (fields : list (string * Value)) (key : string) (v : Value)
  : list (string * Value) :=
  match fields with
  | [] => [(key, v)]
  | (k, x) :: rest =>
      if String.eqb k key then (k, v) :: rest
      else (k, x) :: object_put rest key v
  end.

(** [{ ...source }]: the fields of [source] copied one by one, in order. *)
Definition object_spread (source : list (string * Value)) : list (string * Value) :=
  foldl (fun target kv => object_put target kv.1 kv.2) [] source.

Module errorTransformers.

Section Builtins.

(** The TypeError the engine throws when an object cannot be converted to a
    primitive value. *)
Variable type_error : Value.

(** [String(v)].  Integers print in decimal (the integers of the model
    stand for numbers below 10^21, which JavaScript prints that way).  A
    foreign object is taken to inherit [toString] from [Object.prototype],
    as it has no member besides [then] and [catch] in the model.  An object
    converts through
    [toString] and [valueOf]: a data object whose own [toString] field
    hides the inherited method has no callable [toString], and the
    inherited [valueOf] returns the object itself, so the conversion
    throws.  Objects with methods of their own and objects without a
    prototype are not values of the model. *)
Definition js_String (v : Value) : Completion string :=
  match v with
  | VUndefined => Returns "undefined"
  | VNull => Returns "null"
  | VBool b => Returns (if b then "true" else "false")
  | VNum n => Returns (pretty n)
  | VStr s => Returns s
  | VError message => Returns (error_to_string "Error" message)
  | VAggregateError _ message => Returns (error_to_string "AggregateError" message)
  | VObject fields =>
      match field_lookup fields "toString" with
      | Some _ => Throws type_error
      | None => Returns "[object Object]"
      end
  | VPromise _ => Returns "[object Promise]"
  | VThenable _ _ _ => Returns "[object Object]"
  end.

Definition toString (error : Value) : Completion Value :=
  if instanceof_Error error then Returns (VStr (error_message error))
  else if JsType_eqb (typeof error) TString then Returns error
  else
    match error_like_message error with
    | Some message => Returns (VStr message)
    | None => s ← js_String error; Returns (VStr s)
    end.

Definition toSimpleError (error : Value) : Completion Value :=
  message ←
    (if instanceof_Error error then Returns (error_message error)
     else js_String error);
  Returns (VObject [("message", VStr message)]).

End Builtins.

Definition withContext (context : list (string * Value)) (error : Value)
  : Completion Value :=
  Returns (VObject (object_put (object_spread context) "error" error)).

End errorTransformers.

(** ** Further vocabulary *)

(** The world after [i] calls of [fn], each call starting where the
    previous one left off. *)
Definition world_after {W : Type} (fn : Op W) (i : nat) (w : W) : W :=
  Nat.iter i (fun w0 => (fn w0).2) w.

(** The waits for which [nextDelay] is what the program computes and what
    the timer does: a whole number of milliseconds between 1 and 2^31 - 1.
    Such a number and the integers it is computed from are exact as
    doubles, and [setTimeout] takes it as it is; outside this range the
    product is rounded or the timer replaces the delay. *)
Definition timer_delay (ms : Z) : Prop := 1 ≤ ms ≤ 2147483647.

(** The sum of the waits a run of [neatCatchRetry] asks the timer for, in
    milliseconds. *)
Definition total_wait {W : Type} (run : RetryRun W) : Z :=
  foldr Z.add 0 (waits run).

(** An array written by index only has no hole at its end. *)
Definition ends_populated (arr : JsArray) : Prop :=
  arr = [] ∨ is_Some (array_get arr (pred (length arr))).

(** * Properties *)

(** ** transformError and neatCatch *)

Lemma transformError_returns (error : Value) (transformer : option Transformer) :
  transformError error transformer = Returns (transformed error transformer).
Proof.
  unfold transformError, transformed.
  destruct transformer as [t|]; simpl; [|reflexivity].
  destruct (t error); reflexivity.
Qed.

Lemma handleError_returns (transformer : option Transformer) (error : Value) :
  handleError transformer error = Returns (VNull, transformed error transformer).
Proof.
  unfold handleError. rewrite transformError_returns. reflexivity.
Qed.

Lemma typeof_not_function (v : Value) : typeof v ≠ TFunction.
Proof. destruct v; discriminate. Qed.

Lemma is_awaitable_duck (r : Value) :
  is_awaitable r = true ↔
  typeof_member r "then" = TFunction ∧ typeof_member r "catch" = TFunction.
Proof.
  destruct r as [| | | | | | | fields | st | has_then has_catch st];
    try (split; [discriminate | intros [H _]; discriminate H]).
  - (* a data object: no member is a function *)
    unfold is_awaitable; simpl.
    split.
    + intros H. apply andb_true_iff in H as [H _].
      destruct (field_lookup fields "then") as [x|]; [|discriminate].
      pose proof (typeof_not_function x). destruct (typeof x); done.
    + intros [H _].
      destruct (field_lookup fields "then") as [x|]; [|discriminate].
      pose proof (typeof_not_function x). done.
  - (* a built-in promise *)
    split; [intros _; split; reflexivity | reflexivity].
  - (* a foreign object *)
    unfold is_awaitable; simpl.
    destruct has_then, has_catch; simpl; split; try done; intros [? ?]; done.
Qed.

Section NeatCatchFacts.

Context {W : Type}.
Implicit Types (fn : Op W) (t : option Transformer) (w : W).

Lemma neatCatch_throws fn t w e w' :
  fn w = (Throws e, w') →
  neatCatch fn t w = (Returns (Sync (VNull, transformed e t)), w').
Proof.
  intros Hfn. unfold neatCatch. rewrite Hfn. simpl.
  rewrite handleError_returns. reflexivity.
Qed.

Lemma neatCatch_plain fn t w r w' :
  fn w = (Returns r, w') → is_awaitable r = false →
  neatCatch fn t w = (Returns (Sync (r, VNull)), w').
Proof.
  intros Hfn Hr. unfold neatCatch. rewrite Hfn. simpl.
  rewrite Hr. reflexivity.
Qed.

Lemma neatCatch_awaitable fn t w r w' :
  fn w = (Returns r, w') → is_awaitable r = true →
  neatCatch fn t w =
    (Returns (Async (fate_outcome t (fate (Returns r)))), w').
Proof.
  intros Hfn Hr. unfold neatCatch. rewrite Hfn. simpl.
  rewrite Hr. simpl.
  destruct (settlement r) as [v|e|]; simpl; try reflexivity.
  rewrite handleError_returns. reflexivity.
Qed.

(** Whatever the operation does, [neatCatch] returns normally, leaves the
    world as the operation left it, and what it returns ends up as the
    tuple of the operation's fate. *)
Lemma neatCatch_fate fn t w :
  ∃ r, neatCatch fn t w = (Returns r, (fn w).2) ∧
       eventual r = fate_outcome t (fate (fn w).1).
Proof.
  destruct (fn w) as [[r|e] w'] eqn:Hfn; simpl.
  - destruct (is_awaitable r) eqn:Hr.
    + eexists. split; [apply (neatCatch_awaitable _ _ _ _ _ Hfn Hr)|].
      simpl. rewrite ?Hr. reflexivity.
    + eexists. split; [apply (neatCatch_plain _ _ _ _ _ Hfn Hr)|].
      reflexivity.
  - eexists. split; [apply (neatCatch_throws _ _ _ _ _ Hfn)|]. reflexivity.
Qed.

Lemma fate_outcome_not_rejected t (f : Fate) (e : Value) :
  fate_outcome t f ≠ Rejected e.
Proof. destruct f; discriminate. Qed.

End NeatCatchFacts.

(** ** Arrays with holes *)

Lemma array_get_nil (j : nat) : array_get [] j = None.
Proof. reflexivity. Qed.

Lemma array_get_set (arr : JsArray) (i : nat) (v : Value) (j : nat) :
  array_get (array_set arr i v) j =
  if decide (i = j) then Some v else array_get arr j.
Proof.
  unfold array_get, array_set.
  destruct (decide (i = j)) as [<-|Hne].
  - rewrite list_lookup_insert_eq; [reflexivity|].
    rewrite length_app, length_replicate. lia.
  - rewrite list_lookup_insert_ne by done.
    destruct (decide (j < length arr)%nat) as [Hlt|Hge].
    + rewrite lookup_app_l by done. reflexivity.
    + rewrite lookup_app_r by lia.
      rewrite (lookup_ge_None_2 arr j) by lia. simpl.
      destruct (replicate _ _ !! _) as [x|] eqn:Hx; [|reflexivity].
      apply lookup_replicate_1 in Hx as [-> _]. reflexivity.
Qed.

Lemma array_set_not_nil (arr : JsArray) (i : nat) (v : Value) :
  array_set arr i v ≠ [].
Proof.
  intros H. apply (f_equal length) in H. unfold array_set in H.
  rewrite length_insert, length_app, length_replicate in H. simpl in H. lia.
Qed.

Lemma array_or_null_None (arr : JsArray) : array_or_null arr = None ↔ arr = [].
Proof. destruct arr; simpl; split; done. Qed.

Lemma array_or_null_Some (arr : JsArray) :
  arr ≠ [] → array_or_null arr = Some arr.
Proof. destruct arr; done. Qed.

Lemma slot_array_or_null (arr : JsArray) (j : nat) :
  slot (array_or_null arr) j = array_get arr j.
Proof. destruct arr; reflexivity. Qed.

(** ** Promise.allSettled *)

Section AllSettled.

Variable promises : list NeatResult.

Let recorded (values : list (option SettledResult)) : Prop :=
  length values = length promises ∧
  ∀ i s, values !! i = Some (Some s) → promises !! i ≫= settle_one = Some s.

Lemma allSettled_record_recorded values index :
  recorded values → recorded (allSettled_record promises values index).
Proof.
  intros [Hlen Hval]. unfold allSettled_record.
  destruct (promises !! index ≫= settle_one) as [s|] eqn:Hs; [|by split].
  split; [by rewrite length_insert|].
  intros i s'. destruct (decide (index = i)) as [<-|Hne].
  - destruct (decide (index < length values)%nat).
    + rewrite list_lookup_insert_eq by done. congruence.
    + rewrite list_insert_ge by lia. apply Hval.
  - rewrite list_lookup_insert_ne by done. apply Hval.
Qed.

Lemma allSettled_record_keeps values index i s :
  recorded values → values !! i = Some (Some s) →
  allSettled_record promises values index !! i = Some (Some s).
Proof.
  intros [Hlen Hval] Hi. unfold allSettled_record.
  destruct (promises !! index ≫= settle_one) as [s'|] eqn:Hs; [|done].
  destruct (decide (index = i)) as [->|Hne].
  - rewrite list_lookup_insert_eq by (by eapply lookup_lt_Some).
    apply Hval in Hi. congruence.
  - by rewrite list_lookup_insert_ne.
Qed.

Lemma allSettled_fold_recorded order values :
  recorded values → recorded (foldl (allSettled_record promises) values order).
Proof.
  revert values. induction order as [|index order IH]; intros values Hrec; [done|].
  simpl. apply IH. by apply allSettled_record_recorded.
Qed.

Lemma allSettled_fold_keeps order values i s :
  recorded values → values !! i = Some (Some s) →
  foldl (allSettled_record promises) values order !! i = Some (Some s).
Proof.
  revert values. induction order as [|index order IH]; intros values Hrec Hi; [done|].
  simpl. apply IH.
  - by apply allSettled_record_recorded.
  - by apply allSettled_record_keeps.
Qed.

(** Every input that settles and whose index occurs in the order ends up
    recorded at its own index, wherever in the order it occurs. *)
Lemma allSettled_fold_complete order values i s :
  recorded values → i ∈ order → promises !! i ≫= settle_one = Some s →
  foldl (allSettled_record promises) values order !! i = Some (Some s).
Proof.
  revert values. induction order as [|index order IH]; intros values Hrec Hin Hs.
  - by apply elem_of_nil in Hin.
  - simpl. apply elem_of_cons in Hin as [->|Hin].
    + apply allSettled_fold_keeps; [by apply allSettled_record_recorded|].
      unfold allSettled_record. rewrite Hs.
      apply list_lookup_insert_eq. destruct Hrec as [-> _].
      destruct (promises !! index) eqn:Hp; [|done].
      by eapply lookup_lt_Some.
    + apply IH; [by apply allSettled_record_recorded|done..].
Qed.

Lemma allSettled_covered order results_ :
  mapM settle_one promises = Some results_ →
  (∀ i, (i < length promises)%nat → i ∈ order) →
  allSettled order promises = Fulfilled results_.
Proof.
  intros Hall Hcover. unfold allSettled.
  apply mapM_Some in Hall.
  assert (Hrec0 : recorded (replicate (length promises) None)).
  { split; [by rewrite length_replicate|].
    intros i s Hi. apply lookup_replicate_1 in Hi as [? _]. done. }
  assert (Heq : foldl (allSettled_record promises)
                  (replicate (length promises) None) order = Some <$> results_).
  { apply list_eq. intros i. rewrite list_lookup_fmap.
    destruct (results_ !! i) as [s|] eqn:Hs; simpl.
    - destruct (Forall2_lookup_r _ _ _ _ _ Hall Hs) as (r & Hr & Hrs).
      apply allSettled_fold_complete; [done| |].
      + apply Hcover. by eapply lookup_lt_Some.
      + rewrite Hr. simpl. done.
    - apply lookup_ge_None. apply lookup_ge_None in Hs.
      destruct (allSettled_fold_recorded order _ Hrec0) as [-> _].
      by rewrite (Forall2_length _ _ _ Hall). }
  rewrite Heq. rewrite mapM_fmap_Some by done. reflexivity.
Qed.

Lemma allSettled_not_rejected order (e : Value) :
  allSettled order promises ≠ Rejected e.
Proof. unfold allSettled. by destruct (mapM _ _). Qed.

End AllSettled.

(** ** neatCatchAll *)

Section CollectorFacts.

Context {W : Type}.
Implicit Types (t : option Transformer) (w : W) (operations : list (Op W)).

Lemma written_of_fate t (f : Fate) (o : Outcome) :
  fate_outcome t f = Fulfilled o →
  written t (SFulfilled o) = (results_slot t f, errors_slot t f).
Proof.
  destruct f as [v|e|]; simpl; intros H; try discriminate H.
  - injection H as <-. reflexivity.
  - injection H as <-. simpl. by destruct (truthy _).
Qed.

Lemma collect_step_written t (R E : JsArray) (index : nat) (s : SettledResult) :
  collect_step t (R, E) index s =
  Returns (from_option (array_set R index) R (written t s).1,
           from_option (array_set E index) E (written t s).2).
Proof.
  destruct s as [[data error]|reason]; simpl.
  - by destruct (truthy error).
  - by rewrite transformError_returns.
Qed.

(** The [forEach] pass never throws; below the starting index it changes
    nothing, from the starting index on it writes what each settled entry
    calls for, and an array is still empty afterwards exactly when it was
    empty before and nothing was written to it. *)
Lemma forEach_from_spec t (entries : list SettledResult) :
  ∀ (k : nat) (R E : JsArray),
  ∃ R' E' : JsArray,
    forEach_from k entries t (R, E) = Returns (R', E') ∧
    (∀ j, (j < k)%nat → array_get R' j = array_get R j ∧ array_get E' j = array_get E j) ∧
    (∀ j, array_get R' (k + j) =
          from_option Some (array_get R (k + j)) (entries !! j ≫= λ s, (written t s).1)) ∧
    (∀ j, array_get E' (k + j) =
          from_option Some (array_get E (k + j)) (entries !! j ≫= λ s, (written t s).2)) ∧
    (R' = [] ↔ R = [] ∧ Forall (λ s, (written t s).1 = None) entries) ∧
    (E' = [] ↔ E = [] ∧ Forall (λ s, (written t s).2 = None) entries).
Proof.
  induction entries as [|s rest IH]; intros k R E.
  - exists R, E. simpl. repeat split; try done; by intros [? _].
  - cbn [forEach_from]. rewrite collect_step_written. cbn [mbind Completion_bind].
    set (R1 := from_option (array_set R k) R (written t s).1).
    set (E1 := from_option (array_set E k) E (written t s).2).
    destruct (IH (S k) R1 E1) as (R' & E' & Hrun & Hlow & HR & HE & HRnil & HEnil).
    assert (HR1 : ∀ j, j ≠ k → array_get R1 j = array_get R j).
    { intros j Hj. unfold R1. destruct (written t s).1; simpl; [|done].
      rewrite array_get_set. by destruct (decide (k = j)). }
    assert (HE1 : ∀ j, j ≠ k → array_get E1 j = array_get E j).
    { intros j Hj. unfold E1. destruct (written t s).2; simpl; [|done].
      rewrite array_get_set. by destruct (decide (k = j)). }
    exists R', E'. split; [exact Hrun|]. split; [|split; [|split; [|split]]].
    + intros j Hj. destruct (Hlow j) as [-> ->]; [lia|].
      rewrite HR1, HE1 by lia. done.
    + intros [|j].
      * rewrite Nat.add_0_r. destruct (Hlow k) as [-> _]; [lia|]. simpl.
        unfold R1. destruct (written t s).1; simpl; [|done].
        rewrite array_get_set. by destruct (decide (k = k)).
      * replace (k + S j)%nat with (S k + j)%nat by lia. rewrite HR. simpl.
        rewrite HR1 by lia. done.
    + intros [|j].
      * rewrite Nat.add_0_r. destruct (Hlow k) as [_ ->]; [lia|]. simpl.
        unfold E1. destruct (written t s).2; simpl; [|done].
        rewrite array_get_set. by destruct (decide (k = k)).
      * replace (k + S j)%nat with (S k + j)%nat by lia. rewrite HE. simpl.
        rewrite HE1 by lia. done.
    + rewrite HRnil, Forall_cons. unfold R1.
      destruct (written t s).1; simpl; [|tauto].
      split; [intros [H _]; by apply array_set_not_nil in H|].
      intros [_ [H _]]. discriminate H.
    + rewrite HEnil, Forall_cons. unfold E1.
      destruct (written t s).2; simpl; [|tauto].
      split; [intros [H _]; by apply array_set_not_nil in H|].
      intros [_ [H _]]. discriminate H.
Qed.

Lemma length_fates operations w :
  length (fates operations w) = length operations.
Proof.
  revert w. induction operations as [|op rest IH]; intros w; [done|].
  simpl. destruct (op w). simpl. by rewrite IH.
Qed.

Lemma start_all_fates operations t w :
  ∃ promises w',
    start_all operations t w = (Returns promises, w') ∧
    Forall2 (λ r f, eventual r = fate_outcome t f) promises (fates operations w).
Proof.
  revert w. induction operations as [|op rest IH]; intros w; simpl.
  - by exists [], w.
  - destruct (neatCatch_fate op t w) as (r & Hr & Hev). rewrite Hr.
    destruct (op w) as [called w1]; simpl in *.
    destruct (IH w1) as (rs & w' & Hrs & Hall). rewrite Hrs. simpl.
    exists (r :: rs), w'. split; [done|]. by constructor.
Qed.

(** When no operation hangs, every promise settles as fulfilled with the
    tuple of its operation. *)
Lemma settle_all_fates t (promises : list NeatResult) (fs : list Fate) :
  Forall2 (λ r f, eventual r = fate_outcome t f) promises fs →
  Forall (λ f, f ≠ Hangs) fs →
  ∃ entries,
    mapM settle_one promises = Some entries ∧
    Forall2 (λ s f, written t s = (results_slot t f, errors_slot t f)) entries fs.
Proof.
  induction 1 as [|r f promises fs Hrf _ IH]; intros Hfs.
  - by exists [].
  - apply Forall_cons in Hfs as [Hf Hfs].
    destruct (IH Hfs) as (entries & Hentries & Hall).
    assert (Ho : ∃ o, fate_outcome t f = Fulfilled o).
    { destruct f; [by eexists..|done]. }
    destruct Ho as [o Ho].
    exists (SFulfilled o :: entries). split.
    + apply mapM_Some. apply mapM_Some in Hentries.
      constructor; [|done]. unfold settle_one. by rewrite Hrf, Ho.
    + constructor; [|done]. by apply written_of_fate.
Qed.

(** The collector, when every operation settles and every index occurs in
    the settling order: it is fulfilled, both arrays are index-aligned with
    the operations, and each is empty exactly when nothing was written to
    it. *)
Lemma neatCatchAll_spec operations t order w :
  (∀ i, (i < length operations)%nat → i ∈ order) →
  Forall (λ f, f ≠ Hangs) (fates operations w) →
  ∃ R E : JsArray,
    (neatCatchAll operations t order w).1 =
      Fulfilled {| results := array_or_null R; errors := array_or_null E |} ∧
    (∀ i, array_get R i = fates operations w !! i ≫= results_slot t) ∧
    (∀ i, array_get E i = fates operations w !! i ≫= errors_slot t) ∧
    (R = [] ↔ Forall (λ f, results_slot t f = None) (fates operations w)) ∧
    (E = [] ↔ Forall (λ f, errors_slot t f = None) (fates operations w)).
Proof.
  intros Hcover Hsettle. unfold neatCatchAll.
  destruct (start_all_fates operations t w) as (promises & w' & Hstart & Hall).
  rewrite Hstart. simpl.
  destruct (settle_all_fates t _ _ Hall Hsettle) as (entries & Hentries & Hwritten).
  rewrite (allSettled_covered promises order entries Hentries).
  2:{ intros i Hi. apply Hcover.
      rewrite (Forall2_length _ _ _ Hall) in Hi.
      by rewrite length_fates in Hi. }
  simpl.
  destruct (forEach_from_spec t entries 0 [] [])
    as (R & E & Hrun & _ & HR & HE & HRnil & HEnil).
  rewrite Hrun. simpl. exists R, E. split; [done|].
  assert (Hslots : ∀ (pick : option Value * option Value → option Value)
                     (slot_of : Fate → option Value),
            Forall2 (λ s f, pick (written t s) = slot_of f) entries (fates operations w) →
            ∀ i, entries !! i ≫= (λ s, pick (written t s)) =
                 fates operations w !! i ≫= slot_of).
  { intros pick slot_of H i.
    destruct (entries !! i) as [s|] eqn:Hs; simpl.
    - destruct (Forall2_lookup_l _ _ _ _ _ H Hs) as (f & -> & Hsf). done.
    - apply lookup_ge_None in Hs. rewrite (Forall2_length _ _ _ H) in Hs.
      by rewrite (lookup_ge_None_2 _ _ Hs). }
  assert (H1 : Forall2 (λ s f, (written t s).1 = results_slot t f)
                 entries (fates operations w)).
  { eapply Forall2_impl; [exact Hwritten|]. by intros s f ->. }
  assert (H2 : Forall2 (λ s f, (written t s).2 = errors_slot t f)
                 entries (fates operations w)).
  { eapply Forall2_impl; [exact Hwritten|]. by intros s f ->. }
  repeat split.
  - intros i. specialize (HR i). simpl in HR. rewrite HR.
    rewrite (Hslots fst _ H1).
    by destruct (fates operations w !! i ≫= results_slot t).
  - intros i. specialize (HE i). simpl in HE. rewrite HE.
    rewrite (Hslots snd _ H2).
    by destruct (fates operations w !! i ≫= errors_slot t).
  - intros HRe. apply HRnil in HRe as [_ HRe].
    clear -HRe H1. induction H1 as [|s f ? ? Hsf _ IH]; [done|].
    apply Forall_cons in HRe as [? ?]. constructor; [congruence|auto].
  - intros HF. apply HRnil. split; [done|].
    clear -HF H1. induction H1 as [|s f ? ? Hsf _ IH]; [done|].
    apply Forall_cons in HF as [? ?]. constructor; [congruence|auto].
  - intros HEe. apply HEnil in HEe as [_ HEe].
    clear -HEe H2. induction H2 as [|s f ? ? Hsf _ IH]; [done|].
    apply Forall_cons in HEe as [? ?]. constructor; [congruence|auto].
  - intros HF. apply HEnil. split; [done|].
    clear -HF H2. induction H2 as [|s f ? ? Hsf _ IH]; [done|].
    apply Forall_cons in HF as [? ?]. constructor; [congruence|auto].
Qed.

Lemma neatCatchAll_not_rejected operations t order w (e : Value) :
  (neatCatchAll operations t order w).1 ≠ Rejected e.
Proof.
  unfold neatCatchAll.
  destruct (start_all_fates operations t w) as (promises & w' & -> & _). simpl.
  pose proof (allSettled_not_rejected promises order) as Hns.
  destruct (allSettled order promises) as [entries|e'|]; simpl; [|by destruct (Hns e')|done].
  destruct (forEach_from_spec t entries 0 [] []) as (R & E & -> & _). done.
Qed.

End CollectorFacts.

(** ** neatCatchRetry *)

Section RetryFacts.

Context {W : Type}.
Variable fn : Op W.
Variables (maxRetries_ delay_ : Z) (backoff_ : Backoff).
Variable errorTransformer_ : option (Value → Z → Completion Value).
Variable shouldRetry_ : Value → Z → Completion bool.

Local Abbreviation loop :=
  (retry_loop fn maxRetries_ delay_ backoff_ errorTransformer_ shouldRetry_).
Local Abbreviation round := (retry_round backoff_ delay_).
Local Abbreviation report := (reported errorTransformer_).

Lemma attempt_fate (w : W) :
  ∃ called,
    neatCatch fn None w = (called, (fn w).2) ∧
    await (async_return called) eventual = fate_outcome None (fate (fn w).1).
Proof.
  destruct (neatCatch_fate fn None w) as (r & Hr & Hev).
  exists (Returns r). by split.
Qed.

(** One turn of the loop, read off the fate of the attempt. *)
Lemma retry_loop_unfold (fuel : nat) (attempt : Z) (w : W) :
  attempt ≤ maxRetries_ + 1 →
  loop (S fuel) attempt w =
  let stop (o : Awaited Outcome Value) :=
    Some {| settled := o; events := [EvInvoke]; world := (fn w).2 |} in
  match fate (fn w).1 with
  | Succeeded v => stop (Fulfilled (v, VNull))
  | Hangs => stop Pending
  | Failed e =>
      if truthy e then
        match (if attempt =? maxRetries_ + 1 then Returns false
               else shouldRetry_ e attempt) with
        | Throws x => stop (Rejected x)
        | Returns true => more_events (round attempt) <$> loop fuel (attempt + 1) (fn w).2
        | Returns false => stop (Fulfilled (VNull, report e attempt))
        end
      else stop (Fulfilled (VNull, VNull))
  end.
Proof.
  intros Hle. cbn [retry_loop].
  rewrite (proj2 (Z.leb_le _ _) Hle).
  destruct (attempt_fate w) as (called & -> & ->).
  destruct (fate (fn w).1) as [v|e|]; simpl; [done| |done].
  destruct (truthy e); simpl; [|done].
  destruct (attempt =? maxRetries_ + 1); simpl.
  - unfold reported. destruct errorTransformer_ as [et|]; [|done].
    by rewrite transformError_returns.
  - destruct (shouldRetry_ e attempt) as [[|]|x]; simpl; [done| |done].
    unfold reported. destruct errorTransformer_ as [et|]; [|done].
    by rewrite transformError_returns.
Qed.

Lemma retry_loop_exit (fuel : nat) (attempt : Z) (w : W) :
  maxRetries_ + 1 < attempt →
  loop (S fuel) attempt w =
  Some {| settled := Fulfilled (VNull, VError "Unexpected retry loop exit");
          events := []; world := w |}.
Proof.
  intros Hlt. cbn [retry_loop].
  by rewrite (proj2 (Z.leb_gt _ _) Hlt).
Qed.

Lemma invocations_rounds (from : Z) (k : nat) (rest : list Event) :
  length (List.filter is_invoke ((seqZ from (Z.of_nat k) ≫= round) ++ rest)) =
  (k + length (List.filter is_invoke rest))%nat.
Proof.
  revert from. induction k as [|k IH]; intros from; [done|].
  rewrite Nat2Z.inj_succ, seqZ_cons by lia. simpl.
  replace (Z.pred (Z.succ (Z.of_nat k))) with (Z.of_nat k) by lia.
  f_equal. apply IH.
Qed.

Lemma waits_rounds (from : Z) (k : nat) (rest : list Event) :
  omap wait_of ((seqZ from (Z.of_nat k) ≫= round) ++ rest) =
  (nextDelay backoff_ delay_ <$> seqZ from (Z.of_nat k)) ++ omap wait_of rest.
Proof.
  revert from. induction k as [|k IH]; intros from; [done|].
  rewrite Nat2Z.inj_succ, seqZ_cons by lia. simpl.
  replace (Z.pred (Z.succ (Z.of_nat k))) with (Z.of_nat k) by lia. by rewrite IH.
Qed.

(** The loop returns once the fuel exceeds the number of attempts left.
    The run is a number of rounds (attempt, log, wait) followed by one last
    attempt; it never goes past attempt [maxRetries + 1]. *)
Lemma retry_loop_run (fuel : nat) :
  ∀ (attempt : Z) (w : W),
  attempt ≤ maxRetries_ + 1 →
  (Z.to_nat (maxRetries_ + 1 - attempt) < fuel)%nat →
  ∃ (run : RetryRun W) (k : nat),
    loop fuel attempt w = Some run ∧
    events run = (seqZ attempt (Z.of_nat k) ≫= round) ++ [EvInvoke] ∧
    attempt + Z.of_nat k ≤ maxRetries_ + 1 ∧
    ((∀ e n, ∃ b, shouldRetry_ e n = Returns b) → contained fn (settled run)) ∧
    ((∀ w0, ∃ e, fate (fn w0).1 = Failed e ∧ truthy e = true) →
     (∀ e n, shouldRetry_ e n = Returns true) →
     attempt + Z.of_nat k = maxRetries_ + 1 ∧ ∃ e, settled run = Fulfilled (VNull, e)).
Proof.
  induction fuel as [|fuel IH]; intros attempt w Hle Hfuel; [lia|].
  rewrite retry_loop_unfold by done. cbn zeta.
  assert (Hstop : ∀ o : Awaited Outcome Value,
    contained fn o →
    ((∀ w0, ∃ e, fate (fn w0).1 = Failed e ∧ truthy e = true) →
     (∀ e n, shouldRetry_ e n = Returns true) →
     attempt = maxRetries_ + 1 ∧ ∃ e, o = Fulfilled (VNull, e)) →
    ∃ (run : RetryRun W) (k : nat),
      Some {| settled := o; events := [EvInvoke]; world := (fn w).2 |} = Some run ∧
      events run = (seqZ attempt (Z.of_nat k) ≫= round) ++ [EvInvoke] ∧
      attempt + Z.of_nat k ≤ maxRetries_ + 1 ∧
      ((∀ e n, ∃ b, shouldRetry_ e n = Returns b) → contained fn (settled run)) ∧
      ((∀ w0, ∃ e, fate (fn w0).1 = Failed e ∧ truthy e = true) →
       (∀ e n, shouldRetry_ e n = Returns true) →
       attempt + Z.of_nat k = maxRetries_ + 1 ∧ ∃ e, settled run = Fulfilled (VNull, e))).
  { intros o Hno Hfail. eexists _, 0%nat. split; [done|]. simpl.
    split; [done|]. split; [lia|]. split; [auto|].
    intros H1 H2. destruct (Hfail H1 H2) as [-> ?]. split; [lia|done]. }
  destruct (fate (fn w).1) as [v|e|] eqn:Hfate.
  - apply Hstop; [done|]. intros Hfail _.
    destruct (Hfail w) as (e & He & _). congruence.
  - destruct (truthy e) eqn:Htruthy.
    + destruct (attempt =? maxRetries_ + 1) eqn:Hlast.
      * apply Hstop; [done|]. intros _ _. split; [lia|by eexists].
      * apply Z.eqb_neq in Hlast.
        destruct (shouldRetry_ e attempt) as [[|]|x] eqn:Hsr.
        -- destruct (IH (attempt + 1) (fn w).2) as (run & k & -> & Hev & Hk & Hrej & Hfail);
             [lia..|].
           exists (more_events (round attempt) run), (S k). split; [done|].
           split; [|split; [lia|split]].
           ++ cbn [events more_events]. rewrite Hev.
              rewrite Nat2Z.inj_succ, (seqZ_cons attempt) by lia.
              replace (Z.pred (Z.succ (Z.of_nat k))) with (Z.of_nat k) by lia.
              replace (Z.succ attempt) with (attempt + 1) by lia.
              reflexivity.
           ++ done.
           ++ intros H1 H2. destruct (Hfail H1 H2) as [? ?]. split; [lia|done].
        -- apply Hstop; [done|]. intros _ Hsr'. rewrite Hsr' in Hsr. done.
        -- eexists _, 0%nat. split; [done|]. simpl. split; [done|].
           split; [lia|]. split.
           ++ intros Htotal. destruct (Htotal e attempt) as [b Hb]. congruence.
           ++ intros _ Hsr'. rewrite Hsr' in Hsr. done.
    + apply Hstop; [done|]. intros Hfail _.
      destruct (Hfail w) as (e' & He' & Ht'). congruence.
  - apply Hstop; [by exists w|]. intros Hfail _.
    destruct (Hfail w) as (e & He & _). congruence.
Qed.

End RetryFacts.

(** * The properties of the specification *)

(** C1 (as amended).  No core operation throws or returns a rejected
    promise, whatever the operation and the error transformer do:
    [neatCatch] and every wrapper made by [createNeatWrapper] return
    normally, what they return never rejects and ends up as a tuple unless
    the operation hangs; the promise of [neatCatchAll] never rejects and is
    fulfilled once every operation has settled; and [neatCatchRetry]
    returns a promise that never rejects, and is fulfilled with a tuple
    unless an attempt hangs, provided the [shouldRetry] predicate does not
    itself throw. *)
Theorem core_operations_contain_failures :
  (∀ W (fn : Op W) (t : option Transformer) (w : W),
     ∃ r, (neatCatch fn t w).1 = Returns r ∧
          (∀ e, eventual r ≠ Rejected e) ∧
          (fate (fn w).1 ≠ Hangs → ∃ o, eventual r = Fulfilled o)) ∧
  (∀ W Args (fn : Args → Op W) (t : option Transformer) (args : Args) (w : W),
     ∃ r, (createNeatWrapper fn t args w).1 = Returns r ∧
          (∀ e, eventual r ≠ Rejected e) ∧
          (fate (fn args w).1 ≠ Hangs → ∃ o, eventual r = Fulfilled o)) ∧
  (∀ W (operations : list (Op W)) (t : option Transformer) (order : list nat)
     (w : W),
     (∀ e, (neatCatchAll operations t order w).1 ≠ Rejected e) ∧
     ((∀ i, (i < length operations)%nat → i ∈ order) →
      Forall (λ f, f ≠ Hangs) (fates operations w) →
      ∃ batch, (neatCatchAll operations t order w).1 = Fulfilled batch)) ∧
  (∀ W (fn : Op W) (options : NeatCatchRetryOptions) (w : W),
     (∀ p, shouldRetry options = Some p → ∀ e n, ∃ b, p e n = Returns b) →
     ∃ run, neatCatchRetry fn options w = Some run ∧
            (∀ e, settled run ≠ Rejected e) ∧
            ((∀ w0, fate (fn w0).1 ≠ Hangs) → ∃ o, settled run = Fulfilled o)).
Proof.
  assert (Hneat : ∀ W (fn : Op W) (t : option Transformer) (w : W),
     ∃ r, (neatCatch fn t w).1 = Returns r ∧
          (∀ e, eventual r ≠ Rejected e) ∧
          (fate (fn w).1 ≠ Hangs → ∃ o, eventual r = Fulfilled o)).
  { intros W fn t w. destruct (neatCatch_fate fn t w) as (r & Hr & Hev).
    exists r. rewrite Hr, Hev. split; [done|]. split.
    - intros e. apply fate_outcome_not_rejected.
    - intros Hfate. destruct (fate (fn w).1); [by eexists..|done]. }
  split; [exact Hneat|]. split; [|split].
  - intros W Args fn t args w. apply (Hneat W (λ w0, fn args w0) t w).
  - intros W operations t order w. split.
    + intros e. apply neatCatchAll_not_rejected.
    + intros Hcover Hsettle.
      destruct (neatCatchAll_spec operations t order w Hcover Hsettle)
        as (R & E & Hrun & _). by eexists.
  - intros W fn options w Hpred. unfold neatCatchRetry.
    set (sr := default (λ _ _, Returns true) (shouldRetry options)).
    assert (Hsr : ∀ e n, ∃ b, sr e n = Returns b).
    { unfold sr. destruct (shouldRetry options) as [p|] eqn:Hp; simpl.
      - by apply Hpred.
      - intros _ _. by exists true. }
    destruct (decide (0 ≤ default 3 (maxRetries options))) as [Hnn|Hneg].
    + destruct (retry_loop_run fn (default 3 (maxRetries options))
                  (default 1000 (delay options))
                  (default Exponential (backoff options))
                  (errorTransformer options) sr
                  (S (Z.to_nat (default 3 (maxRetries options) + 1))) 1 w)
        as (run & k & Hrun & _ & _ & Hrej & _); [lia..|].
      exists run. split; [exact Hrun|]. specialize (Hrej Hsr).
      destruct (settled run) as [o|x|]; simpl in Hrej; [|done|].
      * split; [done|]. intros _. by exists o.
      * split; [done|]. intros Hnohang. destruct Hrej as [w0 Hw0].
        by destruct (Hnohang w0).
    + rewrite retry_loop_exit by lia. eexists. split; [done|]. simpl.
      split; [done|]. intros _. by eexists.
Qed.

Lemma core_operations_contain_failures_witness :
  ∃ run, neatCatchRetry (rejecting (VStr "boom"))
           {| maxRetries := Some 1; delay := Some 10; backoff := Some Linear;
              errorTransformer := None;
              shouldRetry := Some (λ _ n, Returns (n <? 1)) |} tt = Some run ∧
         (∀ e, settled run ≠ Rejected e) ∧
         ((∀ w0, fate (rejecting (VStr "boom") w0).1 ≠ Hangs) →
          ∃ o, settled run = Fulfilled o).
Proof.
  apply (proj2 (proj2 (proj2 core_operations_contain_failures))).
  intros p Hp e n. simpl in Hp. injection Hp as <-. eexists. reflexivity.
Defined.

(** C1, as stated, fails: a [shouldRetry] predicate that throws makes the
    promise returned by [neatCatchRetry] reject. *)
Lemma throwing_shouldRetry_rejects :
  settled <$>
    neatCatchRetry (rejecting (VStr "boom"))
      {| maxRetries := None; delay := None; backoff := None;
         errorTransformer := None;
         shouldRetry := Some (λ _ _, Throws (VStr "predicate failed")) |} tt
  = Some (Rejected (VStr "predicate failed")).
Proof. reflexivity. Qed.

(** C2 (as amended).  The tuple [neatCatch] ends up with is [(value, null)]
    when the operation succeeded and [(null, error)] when it failed, where
    [error] is the transformed failure.  A failure differs from every
    success when that error is not [null]; when it is [null] the failure
    gives [(null, null)], the very tuple of a success with value [null]. *)
Theorem neatCatch_outcome_slots :
  (∀ W (fn : Op W) (t : option Transformer) (w : W),
     ∃ r, (neatCatch fn t w).1 = Returns r ∧
          match fate (fn w).1 with
          | Succeeded v => eventual r = Fulfilled (v, VNull)
          | Failed e => eventual r = Fulfilled (VNull, transformed e t)
          | Hangs => eventual r = Pending
          end) ∧
  (∀ W1 W2 (fn1 : Op W1) (fn2 : Op W2) (t1 t2 : option Transformer)
     (w1 : W1) (w2 : W2) (v e : Value) (r1 r2 : NeatResult),
     fate (fn1 w1).1 = Succeeded v →
     fate (fn2 w2).1 = Failed e →
     transformed e t2 ≠ VNull →
     (neatCatch fn1 t1 w1).1 = Returns r1 →
     (neatCatch fn2 t2 w2).1 = Returns r2 →
     eventual r1 ≠ eventual r2) ∧
  (∀ W1 W2 (fn1 : Op W1) (fn2 : Op W2) (t1 t2 : option Transformer)
     (w1 : W1) (w2 : W2) (e : Value) (r1 r2 : NeatResult),
     fate (fn1 w1).1 = Succeeded VNull →
     fate (fn2 w2).1 = Failed e →
     transformed e t2 = VNull →
     (neatCatch fn1 t1 w1).1 = Returns r1 →
     (neatCatch fn2 t2 w2).1 = Returns r2 →
     eventual r1 = eventual r2).
Proof.
  split; [|split].
  - intros W fn t w. destruct (neatCatch_fate fn t w) as (r & Hr & Hev).
    exists r. rewrite Hr, Hev. split; [done|]. by destruct (fate (fn w).1).
  - intros W1 W2 fn1 fn2 t1 t2 w1 w2 v e r1 r2 Hf1 Hf2 Hne Hr1 Hr2.
    destruct (neatCatch_fate fn1 t1 w1) as (r1' & Hr1' & Hev1).
    destruct (neatCatch_fate fn2 t2 w2) as (r2' & Hr2' & Hev2).
    rewrite Hr1' in Hr1. rewrite Hr2' in Hr2. simpl in Hr1, Hr2.
    injection Hr1 as <-. injection Hr2 as <-.
    rewrite Hev1, Hev2, Hf1, Hf2. simpl. congruence.
  - intros W1 W2 fn1 fn2 t1 t2 w1 w2 e r1 r2 Hf1 Hf2 Hnull Hr1 Hr2.
    destruct (neatCatch_fate fn1 t1 w1) as (r1' & Hr1' & Hev1).
    destruct (neatCatch_fate fn2 t2 w2) as (r2' & Hr2' & Hev2).
    rewrite Hr1' in Hr1. rewrite Hr2' in Hr2. simpl in Hr1, Hr2.
    injection Hr1 as <-. injection Hr2 as <-.
    rewrite Hev1, Hev2, Hf1, Hf2. simpl. by rewrite Hnull.
Qed.

Lemma neatCatch_outcome_slots_witness :
  eventual (Sync (VStr "ok", VNull)) ≠ eventual (Sync (VNull, VUndefined)).
Proof.
  apply (proj1 (proj2 neatCatch_outcome_slots) unit unit
           (returning (VStr "ok")) (throwing VUndefined) None None tt tt
           (VStr "ok") VUndefined);
    [reflexivity | reflexivity | discriminate | reflexivity | reflexivity].
Defined.

(** C2, as stated, fails: an operation that throws [null] and one that
    returns [null] give the same tuple. *)
Lemma thrown_null_looks_like_returned_null :
  fate (throwing VNull tt).1 = Failed VNull ∧
  fate (returning VNull tt).1 = Succeeded VNull ∧
  neatCatch (throwing VNull) None tt = neatCatch (returning VNull) None tt ∧
  neatCatch (rejecting VNull) None tt = neatCatch (resolving VNull) None tt.
Proof. repeat split. Qed.

(** C3.  A plain value comes back at once as [(v, null)]; a returned value
    is treated as awaitable exactly when it has a callable [then] and a
    callable [catch], which includes objects that are not built-in
    promises; for an awaitable [neatCatch] returns a promise of the tuple,
    and that promise fulfils with [(v, null)] when the awaitable fulfils
    with [v]. *)
Theorem neatCatch_sync_async_dispatch :
  (∀ W (v : Value) (t : option Transformer) (w : W),
     is_awaitable v = false →
     neatCatch (λ w0, (Returns v, w0)) t w = (Returns (Sync (v, VNull)), w)) ∧
  (∀ r : Value,
     is_awaitable r = true ↔
     typeof_member r "then" = TFunction ∧ typeof_member r "catch" = TFunction) ∧
  (∀ st, instanceof_Promise (VThenable true true st) = false ∧
         is_awaitable (VThenable true true st) = true) ∧
  (∀ W (fn : Op W) (t : option Transformer) (w w' : W) (r : Value),
     fn w = (Returns r, w') → is_awaitable r = true →
     ∃ p, neatCatch fn t w = (Returns (Async p), w') ∧
          ∀ v, settlement r = Fulfilled v → p = Fulfilled (v, VNull)).
Proof.
  split; [|split; [|split]].
  - intros W v t w Hv. by apply neatCatch_plain.
  - apply is_awaitable_duck.
  - done.
  - intros W fn t w w' r Hfn Hr. eexists. split.
    + by apply neatCatch_awaitable.
    + intros v Hv. simpl. by rewrite Hr, Hv.
Qed.

Lemma neatCatch_sync_async_dispatch_witness :
  neatCatch (λ w0 : unit, (Returns (VNum 7), w0)) None tt =
    (Returns (Sync (VNum 7, VNull)), tt) ∧
  ∃ p, neatCatch (λ w0 : unit, (Returns (VThenable true true (Fulfilled (VNum 7))), w0))
         None tt = (Returns (Async p), tt) ∧
       ∀ v, settlement (VThenable true true (Fulfilled (VNum 7))) = Fulfilled v →
            p = Fulfilled (v, VNull).
Proof.
  split.
  - apply (proj1 neatCatch_sync_async_dispatch). reflexivity.
  - apply (proj2 (proj2 (proj2 neatCatch_sync_async_dispatch))); reflexivity.
Defined.

(** C7.  When the error transformer throws on a failure, nothing is
    propagated: [transformError] returns an AggregateError whose [errors]
    are the original failure and the transformer's own, under the fixed
    message, and [neatCatch] reports that aggregate in the error slot, for
    a throwing and for a rejecting operation alike. *)
Theorem transformer_failure_is_aggregated
    (e te : Value) (t : Transformer) :
  t e = Throws te →
  transformError e (Some t) =
    Returns (VAggregateError [e; te] transform_failure_message) ∧
  (∀ W (fn : Op W) (w w' : W),
     fn w = (Throws e, w') →
     neatCatch fn (Some t) w =
       (Returns (Sync (VNull, VAggregateError [e; te] transform_failure_message)), w')) ∧
  (∀ W (fn : Op W) (w w' : W) (r : Value),
     fn w = (Returns r, w') → is_awaitable r = true → settlement r = Rejected e →
     neatCatch fn (Some t) w =
       (Returns (Async (Fulfilled
          (VNull, VAggregateError [e; te] transform_failure_message))), w')).
Proof.
  intros Ht.
  assert (Htr : transformed e (Some t) =
                VAggregateError [e; te] transform_failure_message).
  { unfold transformed. by rewrite Ht. }
  split; [|split].
  - by rewrite transformError_returns, Htr.
  - intros W fn w w' Hfn. by rewrite (neatCatch_throws _ _ _ _ _ Hfn), Htr.
  - intros W fn w w' r Hfn Hr Hst.
    rewrite (neatCatch_awaitable _ _ _ _ _ Hfn Hr). simpl.
    by rewrite Hr, Hst, <- Htr.
Qed.

Lemma transformer_failure_is_aggregated_witness :
  transformError (VError "original error")
    (Some (λ _, Throws (VError "transformer error"))) =
  Returns (VAggregateError [VError "original error"; VError "transformer error"]
             transform_failure_message).
Proof.
  apply (transformer_failure_is_aggregated (VError "original error")
           (VError "transformer error") (λ _, Throws (VError "transformer error"))).
  reflexivity.
Defined.

Section CollectorClaims.

Context {W : Type}.
Implicit Types (t : option Transformer) (w : W) (operations : list (Op W)).

(** Any two settling orders that cover every index give the same result. *)
Lemma neatCatchAll_order_irrelevant operations t order1 order2 w :
  (∀ i, (i < length operations)%nat → i ∈ order1) →
  (∀ i, (i < length operations)%nat → i ∈ order2) →
  Forall (λ f, f ≠ Hangs) (fates operations w) →
  neatCatchAll operations t order1 w = neatCatchAll operations t order2 w.
Proof.
  intros H1 H2 Hsettle. unfold neatCatchAll.
  destruct (start_all_fates operations t w) as (promises & w' & -> & Hall).
  destruct (settle_all_fates t _ _ Hall Hsettle) as (entries & Hentries & _).
  assert (Hlen : length promises = length operations).
  { by rewrite (Forall2_length _ _ _ Hall), length_fates. }
  simpl.
  rewrite (allSettled_covered promises order1 entries Hentries)
    by (intros i Hi; apply H1; by rewrite <- Hlen).
  rewrite (allSettled_covered promises order2 entries Hentries)
    by (intros i Hi; apply H2; by rewrite <- Hlen).
  reflexivity.
Qed.

(** Once every operation has settled, in whatever order, the collector is
    fulfilled with the same batch, and at every index whose operation did
    not fail with a falsy transformed failure: [results[i]] is
    populated, with the operation's value, exactly when operation [i]
    succeeded; [errors[i]] is populated, with the transformed failure,
    exactly when operation [i] failed.  At no index are both populated, and
    a slot that is not populated is absent. *)
Theorem neatCatchAll_index_aligned operations t order w :
  (∀ i, (i < length operations)%nat → i ∈ order) →
  Forall (λ f, f ≠ Hangs) (fates operations w) →
  ∃ batch,
    (neatCatchAll operations t order w).1 = Fulfilled batch ∧
    (∀ order',
       (∀ i, (i < length operations)%nat → i ∈ order') →
       (neatCatchAll operations t order' w).1 = Fulfilled batch) ∧
    ∀ i : nat,
      ¬ (is_Some (slot (results batch) i) ∧ is_Some (slot (errors batch) i)) ∧
      ((∀ e, fates operations w !! i = Some (Failed e) →
             truthy (transformed e t) = true) →
       (∀ v, slot (results batch) i = Some v ↔
             fates operations w !! i = Some (Succeeded v)) ∧
       (∀ x, slot (errors batch) i = Some x ↔
             ∃ e, fates operations w !! i = Some (Failed e) ∧
                  x = transformed e t)).
Proof.
  intros Hcover Hsettle.
  destruct (neatCatchAll_spec operations t order w Hcover Hsettle)
    as (R & E & Hrun & HR & HE & _ & _).
  eexists. split; [exact Hrun|]. split.
  { intros order' Hcover'.
    by rewrite (neatCatchAll_order_irrelevant _ _ order' order). }
  intros i. simpl. rewrite !slot_array_or_null, HR, HE.
  destruct (fates operations w !! i) as [[v|e|]|] eqn:Hi; simpl.
  - split; [intros [_ [? ?]]; done|]. intros _. split.
    + intros v'. split; congruence.
    + intros x. split; [done|]. intros (e & ? & _). done.
  - split.
    + destruct (truthy (transformed e t)); intros [[? ?] [? ?]]; done.
    + intros Htruthy. rewrite (Htruthy e eq_refl). split.
      * intros v. split; done.
      * intros x. split.
        -- intros [= <-]. by exists e.
        -- intros (e' & [= <-] & ->). done.
  - split; [intros [[? ?] _]; done|]. intros _. split.
    + intros v. split; done.
    + intros x. split; [done|]. intros (e & ? & _). done.
  - split; [intros [[? ?] _]; done|]. intros _. split.
    + intros v. split; done.
    + intros x. split; [done|]. intros (e & ? & _). done.
Qed.

(** For a non-empty batch whose operations have all settled: if every operation succeeds, [errors] is null and [results] is
    an array; if every operation fails with a truthy transformed failure,
    [results] is null and [errors] is an array; if some operation succeeds
    and some operation fails with a truthy transformed failure, both are
    arrays. *)
Theorem neatCatchAll_collapse operations t order w :
  operations ≠ [] →
  (∀ i, (i < length operations)%nat → i ∈ order) →
  Forall (λ f, f ≠ Hangs) (fates operations w) →
  ∃ batch,
    (neatCatchAll operations t order w).1 = Fulfilled batch ∧
    (Forall (λ f, ∃ v, f = Succeeded v) (fates operations w) →
     errors batch = None ∧ is_Some (results batch)) ∧
    (Forall (λ f, ∃ e, f = Failed e ∧ truthy (transformed e t) = true)
       (fates operations w) →
     results batch = None ∧ is_Some (errors batch)) ∧
    (Exists (λ f, ∃ v, f = Succeeded v) (fates operations w) →
     Exists (λ f, ∃ e, f = Failed e ∧ truthy (transformed e t) = true)
       (fates operations w) →
     is_Some (results batch) ∧ is_Some (errors batch)).
Proof.
  intros Hne Hcover Hsettle.
  destruct (neatCatchAll_spec operations t order w Hcover Hsettle)
    as (R & E & Hrun & _ & _ & HRnil & HEnil).
  assert (Hfs : fates operations w ≠ []).
  { intros Hnil. apply (f_equal length) in Hnil.
    rewrite length_fates in Hnil. by destruct operations. }
  assert (Hres : Exists (λ f, ∃ v, f = Succeeded v) (fates operations w) → R ≠ []).
  { intros Hex HR. apply HRnil in HR.
    apply Exists_exists in Hex as (f & Hf & v & ->).
    by apply (proj1 (Forall_forall _ _) HR) in Hf. }
  assert (Herr : Exists (λ f, ∃ e, f = Failed e ∧ truthy (transformed e t) = true)
                   (fates operations w) → E ≠ []).
  { intros Hex HE. apply HEnil in HE.
    apply Exists_exists in Hex as (f & Hf & e & -> & Ht).
    apply (proj1 (Forall_forall _ _) HE) in Hf. simpl in Hf. by rewrite Ht in Hf. }
  eexists. split; [exact Hrun|]. simpl. split; [|split].
  - intros Hall. split.
    + apply array_or_null_None, HEnil.
      eapply Forall_impl; [exact Hall|]. by intros f [v ->].
    + rewrite array_or_null_Some; [done|]. apply Hres.
      destruct (fates operations w) as [|f fs]; [done|].
      apply Forall_cons in Hall as [? _]. by left.
  - intros Hall. split.
    + apply array_or_null_None, HRnil.
      eapply Forall_impl; [exact Hall|]. intros f (e & -> & Ht). simpl. by rewrite Ht.
    + rewrite array_or_null_Some; [done|]. apply Herr.
      destruct (fates operations w) as [|f fs]; [done|].
      apply Forall_cons in Hall as [? _]. by left.
  - intros Hs Hf. split; rewrite array_or_null_Some; auto.
Qed.

(** C10 (as amended).  On an empty sequence of operations the collector is
    fulfilled with [{ results: null, errors: null }], whatever the
    transformer and the settling order.  Compared slot by slot with a
    settled batch, that outcome cannot be told from an all-succeeded batch
    by its [errors], nor from a batch in which every operation fails with a
    truthy transformed failure by its [results].  A non-empty batch in which
    every operation fails with a failure reported as [null] is different:
    the failures count as successes with value [null], so its [results] is
    an array and its [errors] is null. *)
Theorem neatCatchAll_empty_batch t0 order0 w0 :
  ∃ empty,
    neatCatchAll [] t0 order0 w0 = (Fulfilled empty, w0) ∧
    results empty = None ∧ errors empty = None ∧
    ∀ operations t order w batch,
      (neatCatchAll operations t order w).1 = Fulfilled batch →
      (∀ i, (i < length operations)%nat → i ∈ order) →
      (Forall (λ f, ∃ v, f = Succeeded v) (fates operations w) →
       errors batch = errors empty) ∧
      (Forall (λ f, ∃ e, f = Failed e ∧ truthy (transformed e t) = true)
         (fates operations w) →
       results batch = results empty) ∧
      (operations ≠ [] →
       Forall (λ f, ∃ e, f = Failed e ∧ transformed e t = VNull)
         (fates operations w) →
       results batch ≠ results empty ∧ errors batch = errors empty).
Proof.
  exists {| results := None; errors := None |}.
  split; [|split; [done|split; [done|]]].
  { unfold neatCatchAll. simpl.
    rewrite (allSettled_covered [] order0 []); [done|done|].
    intros i Hi. simpl in Hi. lia. }
  intros operations t order w batch Hrun Hcover. simpl.
  assert (Hspec : Forall (λ f, f ≠ Hangs) (fates operations w) →
            ∃ R E : JsArray,
              batch = {| results := array_or_null R; errors := array_or_null E |} ∧
              (R = [] ↔ Forall (λ f, results_slot t f = None) (fates operations w)) ∧
              (E = [] ↔ Forall (λ f, errors_slot t f = None) (fates operations w))).
  { intros Hsettle.
    destruct (neatCatchAll_spec operations t order w Hcover Hsettle)
      as (R & E & Hrun' & _ & _ & HRnil & HEnil).
    rewrite Hrun' in Hrun. injection Hrun as <-. by exists R, E. }
  split; [|split].
  - intros Hall. destruct Hspec as (R & E & -> & _ & HEnil).
    { eapply Forall_impl; [exact Hall|]. by intros f [v ->]. }
    simpl. apply array_or_null_None, HEnil.
    eapply Forall_impl; [exact Hall|]. by intros f [v ->].
  - intros Hall. destruct Hspec as (R & E & -> & HRnil & _).
    { eapply Forall_impl; [exact Hall|]. by intros f (e & -> & _). }
    simpl. apply array_or_null_None, HRnil.
    eapply Forall_impl; [exact Hall|]. intros f (e & -> & Ht). simpl. by rewrite Ht.
  - intros Hne Hall. destruct Hspec as (R & E & -> & HRnil & HEnil).
    { eapply Forall_impl; [exact Hall|]. by intros f (e & -> & _). }
    simpl. split.
    + intros HR. apply array_or_null_None, HRnil in HR.
      destruct (fates operations w) as [|f fs] eqn:Hfs.
      * apply (f_equal length) in Hfs. rewrite length_fates in Hfs.
        by destruct operations.
      * apply Forall_cons in Hall as [(e & -> & Hnull) _].
        apply Forall_cons in HR as [HR _]. simpl in HR. by rewrite Hnull in HR.
    + apply array_or_null_None, HEnil.
      eapply Forall_impl; [exact Hall|]. intros f (e & -> & Hnull). simpl.
      by rewrite Hnull.
Qed.

End CollectorClaims.

Lemma neatCatchAll_index_aligned_witness :
  ∃ batch,
    (neatCatchAll
       [resolving (VStr "result1"); rejecting (VStr "error2"); rejecting (VStr "error3")]
       None [2; 0; 1]%nat tt).1 = Fulfilled batch ∧
    slot (results batch) 0 = Some (VStr "result1") ∧
    slot (errors batch) 1 = Some (VStr "error2") ∧
    slot (errors batch) 2 = Some (VStr "error3").
Proof.
  destruct (neatCatchAll_index_aligned
              [resolving (VStr "result1"); rejecting (VStr "error2");
               rejecting (VStr "error3")] None [2; 0; 1]%nat tt)
    as (batch & Hrun & _ & Hidx).
  - covered.
  - repeat constructor; discriminate.
  - exists batch. split; [exact Hrun|]. split; [|split].
    + apply (Hidx 0%nat); [intros e; discriminate|reflexivity].
    + apply (Hidx 1%nat); [by intros e [= <-]|]. by eexists.
    + apply (Hidx 2%nat); [by intros e [= <-]|]. by eexists.
Defined.

(** C4.  The collector loses a failure whose value is falsy without being
    [null].  Below, operation 1 rejects with [undefined] and operation 2
    throws the empty string.  [neatCatch] reports both as failures, with an
    error slot that is not [null]; the collector nevertheless writes [null]
    to [results[1]] and [results[2]] and leaves [errors] without any
    entry. *)
Theorem neatCatchAll_loses_falsy_failures :
  fates [resolving (VStr "a"); rejecting VUndefined; throwing (VStr "")] tt =
    [Succeeded (VStr "a"); Failed VUndefined; Failed (VStr "")] ∧
  (neatCatch (rejecting VUndefined) None tt).1 =
    Returns (Async (Fulfilled (VNull, VUndefined))) ∧
  (neatCatch (throwing (VStr "")) None tt).1 = Returns (Sync (VNull, VStr "")) ∧
  (neatCatchAll [resolving (VStr "a"); rejecting VUndefined; throwing (VStr "")]
     None [0; 1; 2]%nat tt).1 =
    Fulfilled {| results := Some [Some (VStr "a"); Some VNull; Some VNull];
                 errors := None |}.
Proof. repeat split. Qed.

Lemma neatCatchAll_collapse_witness :
  ∃ batch,
    (neatCatchAll [rejecting (VStr "error1"); rejecting (VStr "error2")]
       None [1; 0]%nat tt).1 = Fulfilled batch ∧
    results batch = None ∧ is_Some (errors batch).
Proof.
  destruct (neatCatchAll_collapse
              [rejecting (VStr "error1"); rejecting (VStr "error2")]
              None [1; 0]%nat tt)
    as (batch & Hrun & _ & Hfail & _).
  - discriminate.
  - covered.
  - repeat constructor; discriminate.
  - exists batch. split; [exact Hrun|]. apply Hfail.
    repeat constructor; by eexists.
Defined.

(** C9.  A batch whose operations all fail does not get [results = null]
    when the failures are falsy without being [null].  Below, one operation
    rejects with [undefined] and the other throws [0]; [neatCatch] reports
    both as failures, yet the collector returns [results = [null, null]]
    and [errors = null], the shape of a batch in which everything
    succeeded. *)
Theorem neatCatchAll_all_failed_reported_as_results :
  fates [rejecting VUndefined; throwing (VNum 0)] tt =
    [Failed VUndefined; Failed (VNum 0)] ∧
  (neatCatch (rejecting VUndefined) None tt).1 =
    Returns (Async (Fulfilled (VNull, VUndefined))) ∧
  (neatCatch (throwing (VNum 0)) None tt).1 = Returns (Sync (VNull, VNum 0)) ∧
  (neatCatchAll [rejecting VUndefined; throwing (VNum 0)] None [0; 1]%nat tt).1 =
    Fulfilled {| results := Some [Some VNull; Some VNull]; errors := None |}.
Proof. repeat split. Qed.

Lemma neatCatchAll_empty_batch_witness :
  ∃ empty,
    neatCatchAll [] None [] tt = (Fulfilled empty, tt) ∧
    errors {| results := Some [Some (VStr "a"); Some (VNum 1)]; errors := None |} =
      errors empty.
Proof.
  destruct (neatCatchAll_empty_batch (W := unit) None [] tt)
    as (empty & Hrun & _ & _ & Hcompare).
  exists empty. split; [exact Hrun|].
  destruct (Hcompare [resolving (VStr "a"); returning (VNum 1)] None [0; 1]%nat tt
              {| results := Some [Some (VStr "a"); Some (VNum 1)]; errors := None |})
    as [Hsucceeded _].
  - reflexivity.
  - covered.
  - apply Hsucceeded. simpl. repeat (constructor; [by eexists|]). constructor.
Defined.

(** C10, as stated, fails: a batch whose only operation rejects with [null]
    is an all-failed batch, and its [results] is the array [[null]] while
    the [results] of the empty batch is null. *)
Lemma neatCatchAll_null_failure_unlike_empty_batch :
  fates [rejecting VNull] tt = [Failed VNull] ∧
  (neatCatchAll [rejecting VNull] None [0%nat] tt).1 =
    Fulfilled {| results := Some [Some VNull]; errors := None |} ∧
  (neatCatchAll [] None [0%nat] tt).1 =
    Fulfilled {| results := None; errors := None |}.
Proof. repeat split. Qed.

(** With a delay of at least 1 ms the waits grow with the attempt number,
    so the wait after the last retried attempt bounds them all. *)
Lemma nextDelay_timer_delay (backoff_ : Backoff) (delay_ n m : Z) :
  1 ≤ delay_ → 1 ≤ n ≤ m →
  nextDelay backoff_ delay_ m ≤ 2147483647 →
  timer_delay (nextDelay backoff_ delay_ n).
Proof.
  intros Hd Hn Hm. unfold timer_delay.
  destruct backoff_; unfold nextDelay in *.
  - nia.
  - assert (1 ≤ 2 ^ (n - 1)) by (apply (Z.pow_le_mono_r 2 0 (n - 1)); lia).
    assert (2 ^ (n - 1) ≤ 2 ^ (m - 1)) by (apply Z.pow_le_mono_r; lia).
    nia.
Qed.

Lemma waits_timer_delay (backoff_ : Backoff) (delay_ m : Z) (k : nat) :
  1 ≤ delay_ → Z.of_nat k ≤ m →
  nextDelay backoff_ delay_ m ≤ 2147483647 →
  Forall timer_delay (nextDelay backoff_ delay_ <$> seqZ 1 (Z.of_nat k)).
Proof.
  intros Hd Hk Hm. apply Forall_fmap, Forall_seqZ. intros n Hn. simpl.
  apply (nextDelay_timer_delay backoff_ delay_ n m); [done|lia|done].
Qed.

Section RetryClaims.

Context {W : Type}.
Implicit Types (fn : Op W) (options : NeatCatchRetryOptions) (w : W).


(** After an attempt [n] that failed with a truthy failure value [e]: if [n] is not the last attempt and
    [shouldRetry e n] is true, the driver logs, waits and goes on with
    attempt [n + 1]; if [n] is the last attempt or [shouldRetry e n] is
    false, it stops there and reports [errorTransformer e n] when an
    [errorTransformer] was given and returned, [e] itself when none was
    given.  The predicate defaults to one that is always true.  A predicate
    that accepts the first failure and refuses the second stops the driver
    after exactly two invocations. *)
Theorem neatCatchRetry_continue_or_stop fn :
  (∀ (maxRetries_ delay_ : Z) (backoff_ : Backoff)
     (et : option (Value → Z → Completion Value))
     (sr : Value → Z → Completion bool)
     (fuel : nat) (n : Z) w (e : Value),
     n ≤ maxRetries_ + 1 →
     fate (fn w).1 = Failed e → truthy e = true →
     (n ≠ maxRetries_ + 1 → sr e n = Returns true →
      retry_loop fn maxRetries_ delay_ backoff_ et sr (S fuel) n w =
        more_events (retry_round backoff_ delay_ n) <$>
          retry_loop fn maxRetries_ delay_ backoff_ et sr fuel (n + 1) (fn w).2) ∧
     (n = maxRetries_ + 1 ∨ sr e n = Returns false →
      retry_loop fn maxRetries_ delay_ backoff_ et sr (S fuel) n w =
        Some {| settled := Fulfilled (VNull, reported et e n);
                events := [EvInvoke]; world := (fn w).2 |})) ∧
  (∀ (e : Value) (n : Z), reported None e n = e) ∧
  (∀ (et : Value → Z → Completion Value) (e v : Value) (n : Z),
     et e n = Returns v → reported (Some et) e n = v) ∧
  (∀ options w,
     shouldRetry options = None →
     neatCatchRetry fn options w =
     neatCatchRetry fn
       {| maxRetries := maxRetries options; delay := delay options;
          backoff := backoff options; errorTransformer := errorTransformer options;
          shouldRetry := Some (λ _ _, Returns true) |} w) ∧
  (∀ options w (sr : Value → Z → Completion bool) (e1 e2 : Value),
     shouldRetry options = Some sr →
     1 ≤ default 3 (maxRetries options) →
     fate (fn w).1 = Failed e1 → truthy e1 = true →
     fate (fn (fn w).2).1 = Failed e2 → truthy e2 = true →
     sr e1 1 = Returns true → sr e2 2 = Returns false →
     ∃ run,
       neatCatchRetry fn options w = Some run ∧
       invocations run = 2%nat ∧
       settled run = Fulfilled (VNull, reported (errorTransformer options) e2 2)).
Proof.
  split; [|split; [|split; [|split]]].
  - intros mr d b et sr fuel n w e Hle Hfate Htruthy.
    rewrite (retry_loop_unfold fn mr d b et sr fuel n w Hle). cbn zeta.
    rewrite Hfate, Htruthy. split.
    + intros Hn Hsr. apply Z.eqb_neq in Hn. by rewrite Hn, Hsr.
    + intros [Hn|Hsr].
      * apply Z.eqb_eq in Hn. by rewrite Hn.
      * rewrite Hsr. by destruct (n =? mr + 1).
  - done.
  - intros et e v n Het. unfold reported, transformed. by rewrite Het.
  - intros options w Hsr. unfold neatCatchRetry. simpl. by rewrite Hsr.
  - intros options w sr e1 e2 Hsr Hmr Hf1 Ht1 Hf2 Ht2 Hsr1 Hsr2.
    unfold neatCatchRetry. rewrite Hsr.
    change (default (λ _ _, Returns true) (Some sr)) with sr.
    remember (default 3 (maxRetries options)) as mr eqn:Hmr_def.
    destruct (Z.to_nat (mr + 1)) as [|fuel] eqn:Hfuel; [lia|].
    rewrite retry_loop_unfold by lia. cbn zeta. rewrite Hf1, Ht1.
    assert ((1 =? mr + 1) = false) as -> by (apply Z.eqb_neq; lia).
    rewrite Hsr1. change (1 + 1) with 2.
    rewrite retry_loop_unfold by lia. cbn zeta. rewrite Hf2, Ht2.
    rewrite Hsr2.
    destruct (2 =? mr + 1); (eexists; split; [|split]; reflexivity).
Qed.

(** C8 (as amended).  For a whole [delay] of at least 1 ms and as long as
    the largest wait of the budget is at most 2^31 - 1 ms, a run of the
    driver is a sequence of rounds, attempt [n] being followed by a wait of
    exactly [delay * 2^(n-1)] ms under exponential backoff and
    [delay * n] ms under linear backoff, and then a last attempt; every
    such wait is a delay the timer takes as it is.  With [delay = 100] the
    linear wait after attempt 2 is 200 and the exponential waits after
    attempts 1 and 2 are 100 and 200. *)
Theorem neatCatchRetry_backoff_waits :
  (∀ fn options w run,
     0 ≤ default 3 (maxRetries options) →
     1 ≤ default 1000 (delay options) →
     nextDelay (default Exponential (backoff options))
       (default 1000 (delay options))
       (default 3 (maxRetries options)) ≤ 2147483647 →
     neatCatchRetry fn options w = Some run →
     ∃ k : nat,
       events run =
         (seqZ 1 (Z.of_nat k) ≫=
            retry_round (default Exponential (backoff options))
              (default 1000 (delay options))) ++ [EvInvoke] ∧
       waits run =
         (λ n, match default Exponential (backoff options) with
               | Exponential => default 1000 (delay options) * 2 ^ (n - 1)
               | Linear => default 1000 (delay options) * n
               end) <$> seqZ 1 (Z.of_nat k) ∧
       Forall timer_delay (waits run)) ∧
  nextDelay Linear 100 2 = 200 ∧
  nextDelay Exponential 100 1 = 100 ∧
  nextDelay Exponential 100 2 = 200.
Proof.
  split; [|done].
  intros fn options w run Hnn Hdelay Hmax Hrun. unfold neatCatchRetry in Hrun.
  destruct (retry_loop_run fn (default 3 (maxRetries options))
              (default 1000 (delay options))
              (default Exponential (backoff options))
              (errorTransformer options)
              (default (λ _ _, Returns true) (shouldRetry options))
              (S (Z.to_nat (default 3 (maxRetries options) + 1))) 1 w)
    as (run' & k & Hrun' & Hev & Hk & _); [lia..|].
  rewrite Hrun' in Hrun. injection Hrun as <-.
  exists k. split; [exact Hev|].
  assert (Hwaits : waits run' =
            nextDelay (default Exponential (backoff options))
              (default 1000 (delay options)) <$> seqZ 1 (Z.of_nat k)).
  { unfold waits. rewrite Hev, waits_rounds. simpl. by rewrite app_nil_r. }
  rewrite Hwaits. split.
  - by destruct (default Exponential (backoff options)).
  - apply (waits_timer_delay _ _ (default 3 (maxRetries options))); [done|lia|done].
Qed.

End RetryClaims.


(** C5.  Against an operation whose every attempt fails with a falsy value
    that is not [null] the driver does not use its budget.  Below, every
    attempt rejects with [undefined], which [neatCatch] reports as a
    failure, and [maxRetries] is 2: the driver invokes the operation once,
    waits for nothing and returns [(null, null)], the tuple of a success,
    instead of three invocations and a failure. *)
Theorem neatCatchRetry_gives_up_budget_on_falsy_failure :
  (∀ w, fate (rejecting VUndefined w).1 = Failed VUndefined) ∧
  (neatCatch (rejecting VUndefined) None tt).1 =
    Returns (Async (Fulfilled (VNull, VUndefined))) ∧
  neatCatchRetry (rejecting VUndefined)
    {| maxRetries := Some 2; delay := Some 100; backoff := None;
       errorTransformer := None; shouldRetry := None |} tt =
  Some {| settled := Fulfilled (VNull, VNull); events := [EvInvoke]; world := tt |}.
Proof. repeat split. Qed.

Lemma neatCatchRetry_continue_or_stop_witness :
  ∃ run,
    neatCatchRetry
      (mock_rejecting [VError "retryable"; VError "non-retryable"])
      {| maxRetries := Some 3; delay := Some 100; backoff := None;
         errorTransformer := None;
         shouldRetry := Some (λ e _, Returns (is_retryable e)) |} 0%nat = Some run ∧
    invocations run = 2%nat ∧
    settled run = Fulfilled (VNull, reported None (VError "non-retryable") 2).
Proof.
  apply (proj2 (proj2 (proj2 (proj2
           (neatCatchRetry_continue_or_stop
              (mock_rejecting [VError "retryable"; VError "non-retryable"])))))
           {| maxRetries := Some 3; delay := Some 100; backoff := None;
              errorTransformer := None;
              shouldRetry := Some (λ e _, Returns (is_retryable e)) |} 0%nat
           (λ e _, Returns (is_retryable e))
           (VError "retryable") (VError "non-retryable"));
    first [reflexivity | simpl; lia].
Defined.

(** C6.  After a failure whose value is falsy without being [null] the
    driver follows neither branch of the rule.  Below, the first attempt
    rejects with the empty string, which [neatCatch] reports as a failure,
    and it is not the last attempt.  With a predicate that is always true
    the driver should retry: it stops after one invocation.  With a
    predicate that refuses and an [errorTransformer] it should report
    [errorTransformer("", 1)]: it reports [null], and the failure value is
    gone. *)
Theorem neatCatchRetry_skips_rule_on_falsy_failure :
  (neatCatch (rejecting (VStr "")) None tt).1 =
    Returns (Async (Fulfilled (VNull, VStr ""))) ∧
  neatCatchRetry (rejecting (VStr ""))
    {| maxRetries := Some 3; delay := Some 100; backoff := None;
       errorTransformer := None;
       shouldRetry := Some (λ _ _, Returns true) |} tt =
    Some {| settled := Fulfilled (VNull, VNull); events := [EvInvoke]; world := tt |} ∧
  neatCatchRetry (rejecting (VStr ""))
    {| maxRetries := Some 3; delay := Some 100; backoff := None;
       errorTransformer := Some (λ _ _, Returns (VStr "transformed"));
       shouldRetry := Some (λ _ _, Returns false) |} tt =
    Some {| settled := Fulfilled (VNull, VNull); events := [EvInvoke]; world := tt |}.
Proof. repeat split. Qed.

Lemma neatCatchRetry_backoff_waits_witness :
  ∃ run,
    neatCatchRetry (rejecting (VStr "boom"))
      {| maxRetries := Some 2; delay := Some 100; backoff := Some Linear;
         errorTransformer := None; shouldRetry := None |} tt = Some run ∧
    ∃ k : nat,
      events run = (seqZ 1 (Z.of_nat k) ≫= retry_round Linear 100) ++ [EvInvoke] ∧
      waits run = (λ n, 100 * n) <$> seqZ 1 (Z.of_nat k) ∧
      Forall timer_delay (waits run).
Proof.
  eexists. split; [reflexivity|].
  apply (proj1 (@neatCatchRetry_backoff_waits unit)
           (rejecting (VStr "boom"))
           {| maxRetries := Some 2; delay := Some 100; backoff := Some Linear;
              errorTransformer := None; shouldRetry := None |} tt).
  - simpl. lia.
  - simpl. lia.
  - simpl. lia.
  - reflexivity.
Defined.

(** C8, as stated, fails in its example: with [delay = 100] and exponential
    backoff the waits after attempts 1 and 2 are 100 and 200, not 200 and
    400. *)
Lemma exponential_waits_start_at_delay :
  waits <$>
    neatCatchRetry (rejecting (VStr "boom"))
      {| maxRetries := Some 2; delay := Some 100; backoff := Some Exponential;
         errorTransformer := None; shouldRetry := None |} tt
  = Some [100; 200] ∧
  nextDelay Exponential 100 1 ≠ 200 ∧
  nextDelay Exponential 100 2 ≠ 400.
Proof. split; [reflexivity|]. split; discriminate. Qed.

(** * Further properties of the code *)

(** ** The collector *)

Section CollectorMore.

Context {W : Type}.
Implicit Types (t : option Transformer) (w : W) (operations : list (Op W)).

Lemma start_all_world operations t w :
  (start_all operations t w).2 = foldl (λ w0 op, (op w0).2) w operations.
Proof.
  revert w. induction operations as [|op rest IH]; intros w; [done|].
  simpl. destruct (neatCatch_fate op t w) as (r & -> & _).
  specialize (IH (op w).2).
  destruct (start_all rest t (op w).2) as [started w']. simpl in *. done.
Qed.

(** [neatCatchAll] calls every operation, once and in index order, whatever
    the operations do: the world it leaves is the one obtained by running
    the operations one after the other, and it is the same for every
    transformer and every settling order.  A failure, or an operation that
    never settles, keeps none of the later operations from being started. *)
Theorem neatCatchAll_starts_every_operation operations t order w :
  (neatCatchAll operations t order w).2 =
    foldl (λ w0 op, (op w0).2) w operations.
Proof.
  unfold neatCatchAll. rewrite <- (start_all_world operations t w).
  by destruct (start_all operations t w).
Qed.

(** When an operation never settles, neither does the collector: it
    returns no partial batch, whatever the order in which the other
    operations settle. *)
Theorem neatCatchAll_waits_for_every_operation operations t order w :
  Hangs ∈ fates operations w →
  (neatCatchAll operations t order w).1 = Pending.
Proof.
  intros Hhang. unfold neatCatchAll.
  destruct (start_all_fates operations t w) as (promises & w' & -> & Hall).
  simpl. apply list_elem_of_lookup in Hhang as [i Hi].
  destruct (Forall2_lookup_r _ _ _ _ _ Hall Hi) as (r & Hr & Hev).
  assert (Hnone : promises !! i ≫= settle_one = None).
  { rewrite Hr. simpl. unfold settle_one. by rewrite Hev. }
  unfold allSettled.
  destruct (mapM id _) as [entries|] eqn:Hentries; [|done].
  exfalso. apply mapM_Some in Hentries.
  destruct (allSettled_fold_recorded promises order
              (replicate (length promises) None)) as [Hlen Hrec].
  { split; [by rewrite length_replicate|].
    intros j s Hj. by apply lookup_replicate_1 in Hj as [? _]. }
  destruct (lookup_lt_is_Some_2
              (foldl (allSettled_record promises)
                 (replicate (length promises) None) order) i) as [x Hx].
  { rewrite Hlen. by eapply lookup_lt_Some. }
  destruct (Forall2_lookup_l _ _ _ _ _ Hentries Hx) as (s & _ & Hxs).
  simpl in Hxs. subst x. apply Hrec in Hx. congruence.
Qed.

Lemma length_array_set (arr : JsArray) (i : nat) (v : Value) :
  length (array_set arr i v) = (length arr `max` S i)%nat.
Proof.
  unfold array_set. rewrite length_insert, length_app, length_replicate. lia.
Qed.

Lemma array_set_ends_populated (arr : JsArray) (i : nat) (v : Value) :
  ends_populated arr → ends_populated (array_set arr i v).
Proof.
  intros Harr. right. rewrite length_array_set, array_get_set.
  destruct (decide (i = pred (length arr `max` S i))) as [|Hne]; [done|].
  destruct Harr as [->|Hlast]; [simpl in Hne; lia|].
  replace (pred (length arr `max` S i)) with (pred (length arr)) by lia.
  done.
Qed.

Lemma forEach_from_shape t (entries : list SettledResult) :
  ∀ (k : nat) (R E R' E' : JsArray),
    forEach_from k entries t (R, E) = Returns (R', E') →
    (ends_populated R → (length R ≤ k)%nat →
     ends_populated R' ∧ (length R' ≤ k + length entries)%nat) ∧
    (ends_populated E → (length E ≤ k)%nat →
     ends_populated E' ∧ (length E' ≤ k + length entries)%nat).
Proof.
  induction entries as [|s rest IH]; intros k R E R' E' Hrun.
  - simpl in Hrun. injection Hrun as <- <-. split; intros; split; [done|lia|done|lia].
  - cbn [forEach_from] in Hrun. rewrite collect_step_written in Hrun.
    cbn [mbind Completion_bind] in Hrun.
    apply IH in Hrun as [HR HE]. simpl. split.
    + intros Hends Hlen. destruct HR as [? ?].
      * destruct (written t s).1; simpl; [|done].
        by apply array_set_ends_populated.
      * destruct (written t s).1; simpl; [|lia].
        rewrite length_array_set. lia.
      * split; [done|lia].
    + intros Hends Hlen. destruct HE as [? ?].
      * destruct (written t s).2; simpl; [|done].
        by apply array_set_ends_populated.
      * destruct (written t s).2; simpl; [|lia].
        rewrite length_array_set. lia.
      * split; [done|lia].
Qed.

(** Whenever [results] or [errors] is an array, it is not empty, it is no
    longer than the batch, and its last slot is populated: the holes are
    inside the array, never at its end. *)
Theorem neatCatchAll_arrays_end_populated operations t order w batch :
  (neatCatchAll operations t order w).1 = Fulfilled batch →
  ∀ arr, results batch = Some arr ∨ errors batch = Some arr →
    (0 < length arr ≤ length operations)%nat ∧
    is_Some (array_get arr (length arr - 1)).
Proof.
  unfold neatCatchAll.
  destruct (start_all_fates operations t w) as (promises & w' & -> & Hall).
  simpl. intros Hrun arr Harr.
  assert (Hlen : length promises = length operations).
  { by rewrite (Forall2_length _ _ _ Hall), length_fates. }
  unfold allSettled in Hrun.
  destruct (mapM id _) as [entries|] eqn:Hentries; [|done].
  apply mapM_Some, Forall2_length in Hentries.
  destruct (allSettled_fold_recorded promises order
              (replicate (length promises) None)) as [Hlen' _].
  { split; [by rewrite length_replicate|].
    intros j s Hj. by apply lookup_replicate_1 in Hj as [? _]. }
  rewrite Hlen', Hlen in Hentries. simpl in Hrun.
  destruct (forEach_from_spec t entries 0 [] []) as (R & E & Hfor & _).
  rewrite Hfor in Hrun. simpl in Hrun. injection Hrun as <-. simpl in Harr.
  destruct (forEach_from_shape t entries 0 [] [] R E Hfor) as [HR HE].
  destruct HR as [HR1 HR2]; [by left|simpl; lia|].
  destruct HE as [HE1 HE2]; [by left|simpl; lia|].
  assert (Hshape : ∀ A : JsArray, ends_populated A →
            (length A ≤ 0 + length entries)%nat → array_or_null A = Some arr →
            (0 < length arr ≤ length operations)%nat ∧
            is_Some (array_get arr (length arr - 1))).
  { intros A HA HlenA HAarr. destruct A as [|a A]; [done|].
    simpl in HAarr. injection HAarr as <-.
    destruct HA as [|HA]; [done|]. split; [simpl in *; lia|].
    by replace (length (a :: A) - 1)%nat with (pred (length (a :: A))) by (simpl; lia). }
  destruct Harr as [Harr|Harr]; eauto.
Qed.

End CollectorMore.

(** ** The retry driver *)

Section RetryLoopMore.

Context {W : Type}.
Variable fn : Op W.
Variable maxRetries_ : Z.
Variable errorTransformer_ : option (Value → Z → Completion Value).

Lemma more_events_more_events (evs1 evs2 : list Event) (run : RetryRun W) :
  more_events evs1 (more_events evs2 run) = more_events (evs1 ++ evs2) run.
Proof. unfold more_events. simpl. by rewrite app_assoc. Qed.

Lemma world_after_S (i : nat) (w : W) :
  world_after fn i (fn w).2 = world_after fn (S i) w.
Proof. unfold world_after. by rewrite Nat.iter_succ_r. Qed.

(** As long as the attempts fail with a truthy value, are not the last one
    and the predicate accepts them, the loop goes round: [j] such attempts
    leave [j] rounds in the run and hand over to attempt [attempt + j]. *)
Lemma retry_loop_rounds (delay_ : Z) (backoff_ : Backoff)
    (shouldRetry_ : Value → Z → Completion bool) (j : nat) :
  ∀ (fuel : nat) (attempt : Z) (w : W) (failure : nat → Value),
    attempt + Z.of_nat j ≤ maxRetries_ + 1 →
    (∀ i, (i < j)%nat →
       fate (fn (world_after fn i w)).1 = Failed (failure i) ∧
       truthy (failure i) = true ∧
       shouldRetry_ (failure i) (attempt + Z.of_nat i) = Returns true) →
    retry_loop fn maxRetries_ delay_ backoff_ errorTransformer_ shouldRetry_
      (j + fuel) attempt w =
    more_events (seqZ attempt (Z.of_nat j) ≫= retry_round backoff_ delay_) <$>
      retry_loop fn maxRetries_ delay_ backoff_ errorTransformer_ shouldRetry_
        fuel (attempt + Z.of_nat j) (world_after fn j w).
Proof.
  induction j as [|j IH]; intros fuel attempt w failure Hle Hfail.
  - simpl. rewrite Z.add_0_r.
    destruct (retry_loop _ _ _ _ _ _ fuel attempt w) as [[? ? ?]|]; done.
  - destruct (Hfail 0%nat) as (Hfate & Htruthy & Hsr); [lia|].
    rewrite Z.add_0_r in Hsr. simpl in Hfate.
    cbn [Nat.add]. rewrite retry_loop_unfold by lia. cbn zeta.
    rewrite Hfate, Htruthy.
    assert ((attempt =? maxRetries_ + 1) = false) as -> by (apply Z.eqb_neq; lia).
    rewrite Hsr.
    rewrite (IH fuel (attempt + 1) (fn w).2 (λ i, failure (S i))).
    + rewrite world_after_S.
      replace (attempt + 1 + Z.of_nat j) with (attempt + Z.of_nat (S j)) by lia.
      destruct (retry_loop _ _ _ _ _ _ fuel _ _) as [run|]; simpl; [|done].
      rewrite more_events_more_events. do 2 f_equal.
      rewrite Nat2Z.inj_succ, (seqZ_cons attempt) by lia.
      replace (Z.pred (Z.succ (Z.of_nat j))) with (Z.of_nat j) by lia.
      replace (Z.succ attempt) with (attempt + 1) by lia. reflexivity.
    + lia.
    + intros i Hi. destruct (Hfail (S i)) as (H1 & H2 & H3); [lia|].
      rewrite world_after_S.
      replace (attempt + 1 + Z.of_nat i) with (attempt + Z.of_nat (S i)) by lia.
      done.
Qed.

(** The predicate is consulted for attempts before the last one only: two
    predicates that agree there drive the loop alike. *)
Lemma retry_loop_predicate_ext (delay_ : Z) (backoff_ : Backoff)
    (sr1 sr2 : Value → Z → Completion bool) (fuel : nat) :
  ∀ (attempt : Z) (w : W),
    (∀ e n, attempt ≤ n < maxRetries_ + 1 → sr1 e n = sr2 e n) →
    retry_loop fn maxRetries_ delay_ backoff_ errorTransformer_ sr1 fuel attempt w =
    retry_loop fn maxRetries_ delay_ backoff_ errorTransformer_ sr2 fuel attempt w.
Proof.
  induction fuel as [|fuel IH]; intros attempt w Hagree; [done|].
  destruct (decide (attempt ≤ maxRetries_ + 1)) as [Hle|Hgt].
  - rewrite !retry_loop_unfold by done. cbn zeta.
    destruct (fate (fn w).1) as [v|e|]; [done| |done].
    destruct (truthy e); [|done].
    destruct (attempt =? maxRetries_ + 1) eqn:Hlast; [done|].
    apply Z.eqb_neq in Hlast. rewrite <- (Hagree e attempt) by lia.
    destruct (sr1 e attempt) as [[|]|x]; [|done..].
    rewrite (IH (attempt + 1) (fn w).2); [done|].
    intros e' n Hn. apply Hagree. lia.
  - rewrite !retry_loop_exit by lia. done.
Qed.

End RetryLoopMore.

Section RetryMore.

Context {W : Type}.
Implicit Types (fn : Op W) (options : NeatCatchRetryOptions) (w : W).

(** An operation that fails [k] times, each time with a truthy value the
    predicate accepts, and then succeeds within the budget is invoked
    exactly [k + 1] times: the driver waits after each failure, returns the
    value in a success tuple as soon as the operation succeeds, and applies
    no error transformer. *)
Theorem neatCatchRetry_succeeds_after_failures fn options w
    (k : nat) (failure : nat → Value) (v : Value) :
  Z.of_nat k ≤ default 3 (maxRetries options) →
  (∀ i, (i < k)%nat →
     fate (fn (world_after fn i w)).1 = Failed (failure i) ∧
     truthy (failure i) = true ∧
     default (λ _ _, Returns true) (shouldRetry options)
       (failure i) (1 + Z.of_nat i) = Returns true) →
  fate (fn (world_after fn k w)).1 = Succeeded v →
  neatCatchRetry fn options w =
    Some {| settled := Fulfilled (v, VNull);
            events :=
              (seqZ 1 (Z.of_nat k) ≫=
                 retry_round (default Exponential (backoff options))
                   (default 1000 (delay options))) ++ [EvInvoke];
            world := world_after fn (S k) w |}.
Proof.
  intros Hk Hfail Hsucc. unfold neatCatchRetry.
  remember (Z.to_nat (default 3 (maxRetries options) + 1)) as budget eqn:Hfuel.
  replace (S budget) with (k + S (budget - k))%nat by lia.
  rewrite (retry_loop_rounds fn _ _ _ _ _ k _ 1 w failure) by (done || lia).
  rewrite retry_loop_unfold by lia. cbn zeta. rewrite Hsucc. reflexivity.
Qed.

(** The driver gives up at attempt [k + 1] when the [k] attempts before it
    were retried and attempt [k + 1] fails as the last one of the budget or
    is refused by the predicate.  It then reports the failure of that
    attempt, not an earlier one, transformed with the attempt number
    [k + 1]; on the last attempt of the budget the predicate is not asked. *)
Theorem neatCatchRetry_gives_up fn options w (k : nat) (failure : nat → Value) :
  Z.of_nat k ≤ default 3 (maxRetries options) →
  (∀ i, (i < k)%nat →
     fate (fn (world_after fn i w)).1 = Failed (failure i) ∧
     truthy (failure i) = true ∧
     default (λ _ _, Returns true) (shouldRetry options)
       (failure i) (1 + Z.of_nat i) = Returns true) →
  fate (fn (world_after fn k w)).1 = Failed (failure k) →
  truthy (failure k) = true →
  Z.of_nat k = default 3 (maxRetries options) ∨
    default (λ _ _, Returns true) (shouldRetry options)
      (failure k) (1 + Z.of_nat k) = Returns false →
  neatCatchRetry fn options w =
    Some {| settled :=
              Fulfilled (VNull,
                reported (errorTransformer options) (failure k) (1 + Z.of_nat k));
            events :=
              (seqZ 1 (Z.of_nat k) ≫=
                 retry_round (default Exponential (backoff options))
                   (default 1000 (delay options))) ++ [EvInvoke];
            world := world_after fn (S k) w |}.
Proof.
  intros Hk Hfail Hlast Htruthy Hstop. unfold neatCatchRetry.
  remember (Z.to_nat (default 3 (maxRetries options) + 1)) as budget eqn:Hfuel.
  replace (S budget) with (k + S (budget - k))%nat by lia.
  rewrite (retry_loop_rounds fn _ _ _ _ _ k _ 1 w failure) by (done || lia).
  rewrite retry_loop_unfold by lia. cbn zeta. rewrite Hlast, Htruthy.
  destruct Hstop as [Hspent|Hrefused].
  - assert ((1 + Z.of_nat k =? default 3 (maxRetries options) + 1) = true) as ->
      by (apply Z.eqb_eq; lia).
    reflexivity.
  - rewrite Hrefused. by destruct (1 + Z.of_nat k =? _).
Qed.

Lemma total_delay_exponential (delay_ : Z) (k : nat) :
  ∀ from : Z, 1 ≤ from →
    foldr Z.add 0 (nextDelay Exponential delay_ <$> seqZ from (Z.of_nat k)) =
    delay_ * 2 ^ (from - 1) * (2 ^ Z.of_nat k - 1).
Proof.
  induction k as [|k IH]; intros from Hfrom; [simpl; lia|].
  rewrite Nat2Z.inj_succ, (seqZ_cons from) by lia.
  replace (Z.pred (Z.succ (Z.of_nat k))) with (Z.of_nat k) by lia.
  cbn [fmap list_fmap foldr]. rewrite IH by lia. unfold nextDelay.
  replace (Z.succ from - 1) with (Z.succ (from - 1)) by lia.
  rewrite !Z.pow_succ_r by lia. ring.
Qed.

Lemma total_delay_linear (delay_ : Z) (k : nat) :
  ∀ from : Z,
    2 * foldr Z.add 0 (nextDelay Linear delay_ <$> seqZ from (Z.of_nat k)) =
    delay_ * Z.of_nat k * (2 * from + Z.of_nat k - 1).
Proof.
  induction k as [|k IH]; intros from; [simpl; lia|].
  rewrite Nat2Z.inj_succ, (seqZ_cons from) by lia.
  replace (Z.pred (Z.succ (Z.of_nat k))) with (Z.of_nat k) by lia.
  cbn [fmap list_fmap foldr]. rewrite Z.mul_add_distr_l, IH.
  unfold nextDelay, Z.succ. ring.
Qed.

(** For a whole [delay] of at least 1 ms and as long as the largest wait of
    the budget is at most 2^31 - 1 ms, the waits a run asks the timer for
    are all delays the timer takes as they are, and their sum depends only
    on the number [r] of retries the run made: [delay * (2^r - 1)] under
    exponential backoff and [delay * r * (r + 1) / 2] under linear backoff,
    with [r] at most [maxRetries]. *)
Theorem neatCatchRetry_total_wait fn options w run :
  0 ≤ default 3 (maxRetries options) →
  1 ≤ default 1000 (delay options) →
  nextDelay (default Exponential (backoff options))
    (default 1000 (delay options))
    (default 3 (maxRetries options)) ≤ 2147483647 →
  neatCatchRetry fn options w = Some run →
  ∃ r : Z,
    Z.of_nat (invocations run) = r + 1 ∧
    0 ≤ r ≤ default 3 (maxRetries options) ∧
    Forall timer_delay (waits run) ∧
    match default Exponential (backoff options) with
    | Exponential => total_wait run = default 1000 (delay options) * (2 ^ r - 1)
    | Linear => 2 * total_wait run = default 1000 (delay options) * r * (r + 1)
    end.
Proof.
  intros Hnn Hdelay Hmax Hrun. unfold neatCatchRetry in Hrun.
  destruct (retry_loop_run fn (default 3 (maxRetries options))
              (default 1000 (delay options))
              (default Exponential (backoff options))
              (errorTransformer options)
              (default (λ _ _, Returns true) (shouldRetry options))
              (S (Z.to_nat (default 3 (maxRetries options) + 1))) 1 w)
    as (run' & k & Hrun' & Hev & Hk & _); [lia..|].
  rewrite Hrun' in Hrun. injection Hrun as <-.
  assert (Hwaits : waits run' =
            nextDelay (default Exponential (backoff options))
              (default 1000 (delay options)) <$> seqZ 1 (Z.of_nat k)).
  { unfold waits. rewrite Hev, waits_rounds. simpl. by rewrite app_nil_r. }
  exists (Z.of_nat k). split; [|split; [lia|split]].
  - unfold invocations. rewrite Hev, invocations_rounds. simpl. lia.
  - rewrite Hwaits.
    apply (waits_timer_delay _ _ (default 3 (maxRetries options))); [done|lia|done].
  - unfold total_wait. rewrite Hwaits.
    destruct (default Exponential (backoff options)).
    + rewrite total_delay_linear. ring.
    + rewrite total_delay_exponential by lia.
      change (1 - 1) with 0. rewrite Z.pow_0_r. ring.
Qed.

(** The return after the loop is reached exactly when [maxRetries] is
    negative: the operation is then never invoked and the driver returns
    the "Unexpected retry loop exit" error, to which no error transformer
    is applied.  With a non-negative [maxRetries] a run starts with an
    invocation of the operation. *)
Theorem neatCatchRetry_loop_exit fn options w :
  (default 3 (maxRetries options) < 0 →
   neatCatchRetry fn options w =
     Some {| settled := Fulfilled (VNull, VError "Unexpected retry loop exit");
             events := []; world := w |}) ∧
  (0 ≤ default 3 (maxRetries options) →
   ∃ run, neatCatchRetry fn options w = Some run ∧
          head (events run) = Some EvInvoke).
Proof.
  split.
  - intros Hneg. unfold neatCatchRetry. by rewrite retry_loop_exit by lia.
  - intros Hnn. unfold neatCatchRetry.
    destruct (retry_loop_run fn (default 3 (maxRetries options))
                (default 1000 (delay options))
                (default Exponential (backoff options))
                (errorTransformer options)
                (default (λ _ _, Returns true) (shouldRetry options))
                (S (Z.to_nat (default 3 (maxRetries options) + 1))) 1 w)
      as (run & k & Hrun & Hev & _); [lia..|].
    exists run. split; [done|]. rewrite Hev.
    destruct k as [|k]; [done|].
    by rewrite Nat2Z.inj_succ, (seqZ_cons 1) by lia.
Qed.

(** [shouldRetry] is asked about attempts [1 .. maxRetries] only, never
    about the last attempt of the budget: replacing it by a predicate that
    agrees with it on those attempts changes nothing.  With
    [maxRetries = 0] the predicate is irrelevant altogether. *)
Theorem neatCatchRetry_predicate_scope fn options
    (sr : Value → Z → Completion bool) w :
  (∀ e n, 1 ≤ n ≤ default 3 (maxRetries options) →
     default (λ _ _, Returns true) (shouldRetry options) e n = sr e n) →
  neatCatchRetry fn options w =
  neatCatchRetry fn
    {| maxRetries := maxRetries options; delay := delay options;
       backoff := backoff options; errorTransformer := errorTransformer options;
       shouldRetry := Some sr |} w.
Proof.
  intros Hagree. unfold neatCatchRetry.
  cbn [maxRetries delay backoff errorTransformer shouldRetry].
  change (default (λ _ _, Returns true) (Some sr)) with sr.
  apply retry_loop_predicate_ext. intros e n Hn. apply Hagree. lia.
Qed.

End RetryMore.

(** ** The converter *)

(** An object that exposes only one of [then] and [catch] is not awaited:
    [neatCatch] hands it back at once as the value of a success tuple,
    however it would settle, and the error transformer is not applied. *)
Theorem neatCatch_partial_thenable_not_awaited {W : Type} (fn : Op W)
    (t : option Transformer) (w w' : W) (has_then has_catch : bool)
    (st : Awaited Value Value) :
  fn w = (Returns (VThenable has_then has_catch st), w') →
  has_then && has_catch = false →
  neatCatch fn t w =
    (Returns (Sync (VThenable has_then has_catch st, VNull)), w').
Proof.
  intros Hfn Hpartial. apply (neatCatch_plain _ _ _ _ _ Hfn).
  unfold is_awaitable. simpl. by destruct has_then, has_catch.
Qed.

Lemma neatCatch_partial_thenable_not_awaited_witness :
  neatCatch (returning (VThenable true false (Rejected (VStr "lost"))))
    (Some (λ _, Returns (VStr "transformed"))) tt =
  (Returns (Sync (VThenable true false (Rejected (VStr "lost")), VNull)), tt).
Proof.
  apply (neatCatch_partial_thenable_not_awaited
           (returning (VThenable true false (Rejected (VStr "lost"))))
           (Some (λ _, Returns (VStr "transformed"))) tt tt true false
           (Rejected (VStr "lost")));
    reflexivity.
Defined.

(** ** The canned transformers *)

Lemma object_put_lookup (fields : list (string * Value)) (key : string)
    (v : Value) (k : string) :
  field_lookup (object_put fields key v) k =
  if String.eqb key k then Some v else field_lookup fields k.
Proof.
  induction fields as [|[k0 x] rest IH]; simpl.
  - done.
  - destruct (String.eqb k0 key) eqn:Hk0; simpl.
    + apply String.eqb_eq in Hk0 as ->. by destruct (String.eqb key k).
    + rewrite IH. destruct (String.eqb k0 k) eqn:Hk; [|done].
      apply String.eqb_eq in Hk as ->. by rewrite String.eqb_sym, Hk0.
Qed.

Lemma object_put_fresh (fields : list (string * Value)) (key : string) (v : Value) :
  field_lookup fields key = None →
  object_put fields key v = fields ++ [(key, v)].
Proof.
  induction fields as [|[k0 x] rest IH]; simpl; [done|].
  destruct (String.eqb k0 key); [done|]. intros H. by rewrite IH.
Qed.

Lemma field_lookup_app_None (fields more : list (string * Value)) (k : string) :
  field_lookup fields k = None →
  field_lookup (fields ++ more) k = field_lookup more k.
Proof.
  induction fields as [|[k0 x] rest IH]; simpl; [done|].
  by destruct (String.eqb k0 k).
Qed.

(** Spreading copies a list of fields with distinct keys as it is. *)
Lemma object_spread_NoDup (source : list (string * Value)) :
  NoDup source.*1 → object_spread source = source.
Proof.
  unfold object_spread.
  enough (H : ∀ target,
            NoDup source.*1 →
            (∀ k, k ∈ source.*1 → field_lookup target k = None) →
            foldl (λ tg kv, object_put tg kv.1 kv.2) target source = target ++ source).
  { intros Hnd. by apply (H []). }
  induction source as [|[k x] rest IH]; intros target Hnd Hfresh; simpl.
  - by rewrite app_nil_r.
  - apply NoDup_cons in Hnd as [Hk Hnd].
    rewrite object_put_fresh by (apply Hfresh; left).
    rewrite IH; [by rewrite <- app_assoc|done|].
    intros k' Hk'. rewrite field_lookup_app_None by (apply Hfresh; by right).
    simpl. destruct (String.eqb k k') eqn:Heq; [|done].
    apply String.eqb_eq in Heq as ->. done.
Qed.

Section TransformerFacts.

Variable type_error : Value.

Local Abbreviation toString := (errorTransformers.toString type_error).
Local Abbreviation toSimpleError := (errorTransformers.toSimpleError type_error).
Local Abbreviation js_String := (errorTransformers.js_String type_error).

(** Whenever [toString] returns, it returns a string, and applying it to
    that string gives the string back: normalising an error with
    [toString] a second time changes nothing. *)
Theorem errorTransformers_toString_idempotent (error v : Value) :
  toString error = Returns v →
  (∃ s, v = VStr s) ∧ toString v = Returns v.
Proof.
  unfold errorTransformers.toString. intros H.
  assert (Hstr : ∃ s, v = VStr s).
  { destruct (instanceof_Error error); [injection H as <-; by eexists|].
    destruct (JsType_eqb (typeof error) TString) eqn:Htype.
    - injection H as <-. destruct error; try discriminate. by eexists.
    - destruct (error_like_message error); [injection H as <-; by eexists|].
      destruct (js_String error); [|discriminate].
      injection H as <-. by eexists. }
  split; [exact Hstr|]. by destruct Hstr as [s ->].
Qed.

(** [toSimpleError] reads a message off Error instances only.  Where
    [toString] finds no message of an error-like object, the two agree;
    but an object that merely looks like an error, with a string [message]
    field, has that message returned by [toString] and dropped by
    [toSimpleError], which reports ["[object Object]"]. *)
Theorem errorTransformers_toSimpleError_message (error : Value) :
  (instanceof_Error error = true ∨ error_like_message error = None →
   toSimpleError error =
     (s ← toString error; Returns (VObject [("message", s)]))) ∧
  (∀ fields message,
     error = VObject fields →
     field_lookup fields "message" = Some (VStr message) →
     field_lookup fields "toString" = None →
     toString error = Returns (VStr message) ∧
     toSimpleError error =
       Returns (VObject [("message", VStr "[object Object]")])).
Proof.
  split.
  - unfold errorTransformers.toSimpleError, errorTransformers.toString.
    destruct (instanceof_Error error) eqn:Hinst; [done|].
    intros [|Hmsg]; [done|]. rewrite Hmsg.
    destruct (JsType_eqb (typeof error) TString) eqn:Htype.
    + by destruct error.
    + by destruct (js_String error).
  - intros fields message -> Hmsg Hts.
    unfold errorTransformers.toSimpleError, errorTransformers.toString. simpl.
    by rewrite Hmsg, Hts.
Qed.

End TransformerFacts.

(** [withContext] keeps every field of the context except a field named
    [error]: the [error] field of the result is always the failure
    itself. *)
Theorem errorTransformers_withContext_fields
    (context : list (string * Value)) (error : Value) :
  NoDup context.*1 →
  ∃ fields,
    errorTransformers.withContext context error = Returns (VObject fields) ∧
    field_lookup fields "error" = Some error ∧
    ∀ k, k ≠ "error" → field_lookup fields k = field_lookup context k.
Proof.
  intros Hnd. eexists. split; [reflexivity|].
  rewrite (object_spread_NoDup context Hnd). split.
  - by rewrite object_put_lookup.
  - intros k Hk. rewrite object_put_lookup.
    destruct (String.eqb "error" k) eqn:Heq; [|done].
    apply String.eqb_eq in Heq. congruence.
Qed.

(** ** Transformers in the collector *)

(** With [withContext] as its transformer the collector files every failure
    under [errors], a failure with a falsy value such as [null] included:
    the transformed failure is an object, which the truthiness test of the
    collector never takes for a success, and the raw failure is its [error]
    field. *)
Theorem neatCatchAll_withContext_files_every_failure {W : Type}
    (operations : list (Op W)) (context : list (string * Value))
    (order : list nat) (w : W) :
  (∀ i, (i < length operations)%nat → i ∈ order) →
  Forall (λ f, f ≠ Hangs) (fates operations w) →
  ∃ batch,
    (neatCatchAll operations (Some (errorTransformers.withContext context))
       order w).1 = Fulfilled batch ∧
    ∀ i : nat,
      (∀ e, fates operations w !! i = Some (Failed e) →
         slot (results batch) i = None ∧
         ∃ fields, slot (errors batch) i = Some (VObject fields) ∧
                   field_lookup fields "error" = Some e) ∧
      (∀ v, fates operations w !! i = Some (Succeeded v) →
         slot (results batch) i = Some v ∧ slot (errors batch) i = None).
Proof.
  intros Hcover Hsettle.
  destruct (neatCatchAll_spec operations
              (Some (errorTransformers.withContext context)) order w Hcover Hsettle)
    as (R & E & Hrun & HR & HE & _ & _).
  eexists. split; [exact Hrun|]. intros i. simpl.
  rewrite !slot_array_or_null, HR, HE. split.
  - intros e ->. simpl. split; [done|]. eexists. split; [done|].
    by rewrite object_put_lookup.
  - by intros v ->.
Qed.

(** ** Concrete runs *)

Lemma neatCatchAll_waits_for_every_operation_witness :
  (neatCatchAll [resolving (VStr "a"); returning (VPromise Pending)]
     None [0; 1]%nat tt).1 = Pending.
Proof.
  apply (neatCatchAll_waits_for_every_operation
           [resolving (VStr "a"); returning (VPromise Pending)] None [0; 1]%nat tt).
  simpl. repeat constructor.
Defined.

Lemma neatCatchAll_arrays_end_populated_witness :
  (0 < length [Some (VStr "result1")] ≤ 3)%nat ∧
  is_Some (array_get [Some (VStr "result1")] (length [Some (VStr "result1")] - 1)).
Proof.
  apply (neatCatchAll_arrays_end_populated
           [resolving (VStr "result1"); rejecting (VStr "error2");
            rejecting (VStr "error3")] None [2; 0; 1]%nat tt
           {| results := Some [Some (VStr "result1")];
              errors := Some [None; Some (VStr "error2"); Some (VStr "error3")] |}).
  - reflexivity.
  - left. reflexivity.
Defined.

Lemma neatCatchRetry_succeeds_after_failures_witness :
  neatCatchRetry (mock_rejecting [VStr "first error"; VStr "second error"])
    {| maxRetries := Some 2; delay := Some 10; backoff := Some Linear;
       errorTransformer := None; shouldRetry := None |} 0%nat =
  Some {| settled := Fulfilled (VStr "success", VNull);
          events := (seqZ 1 (Z.of_nat 2) ≫= retry_round Linear 10) ++ [EvInvoke];
          world := world_after
                     (mock_rejecting [VStr "first error"; VStr "second error"])
                     3 0%nat |}.
Proof.
  apply (neatCatchRetry_succeeds_after_failures
           (mock_rejecting [VStr "first error"; VStr "second error"])
           {| maxRetries := Some 2; delay := Some 10; backoff := Some Linear;
              errorTransformer := None; shouldRetry := None |} 0%nat 2
           (λ i, default VUndefined
                   ([VStr "first error"; VStr "second error"] !! i))
           (VStr "success")).
  - simpl. lia.
  - intros i Hi. destruct i as [|[|i]]; [by repeat split..|lia].
  - reflexivity.
Defined.

Lemma neatCatchRetry_gives_up_witness :
  neatCatchRetry (rejecting (VError "original error"))
    {| maxRetries := Some 1; delay := Some 100; backoff := None;
       errorTransformer := Some (λ _ attempt, Returns (VNum attempt));
       shouldRetry := None |} tt =
  Some {| settled := Fulfilled (VNull, VNum 2);
          events := (seqZ 1 (Z.of_nat 1) ≫= retry_round Exponential 100) ++ [EvInvoke];
          world := tt |}.
Proof.
  apply (neatCatchRetry_gives_up
           (rejecting (VError "original error"))
           {| maxRetries := Some 1; delay := Some 100; backoff := None;
              errorTransformer := Some (λ _ attempt, Returns (VNum attempt));
              shouldRetry := None |} tt 1 (λ _, VError "original error")).
  - simpl. lia.
  - intros i Hi. by repeat split.
  - reflexivity.
  - reflexivity.
  - left. reflexivity.
Defined.

Lemma neatCatchRetry_total_wait_witness :
  ∃ run,
    neatCatchRetry (rejecting (VStr "boom"))
      {| maxRetries := None; delay := None; backoff := None;
         errorTransformer := None; shouldRetry := None |} tt = Some run ∧
    ∃ r : Z,
      Z.of_nat (invocations run) = r + 1 ∧ 0 ≤ r ≤ 3 ∧
      Forall timer_delay (waits run) ∧
      total_wait run = 1000 * (2 ^ r - 1).
Proof.
  eexists. split; [reflexivity|].
  apply (neatCatchRetry_total_wait (rejecting (VStr "boom"))
           {| maxRetries := None; delay := None; backoff := None;
              errorTransformer := None; shouldRetry := None |} tt).
  - simpl. lia.
  - simpl. lia.
  - simpl. lia.
  - reflexivity.
Defined.

Lemma neatCatchRetry_loop_exit_witness :
  neatCatchRetry (resolving (VStr "never asked"))
    {| maxRetries := Some (-1); delay := None; backoff := None;
       errorTransformer := Some (λ _ _, Returns (VStr "transformed"));
       shouldRetry := None |} tt =
  Some {| settled := Fulfilled (VNull, VError "Unexpected retry loop exit");
          events := []; world := tt |}.
Proof.
  apply (proj1 (neatCatchRetry_loop_exit (resolving (VStr "never asked"))
                  {| maxRetries := Some (-1); delay := None; backoff := None;
                     errorTransformer := Some (λ _ _, Returns (VStr "transformed"));
                     shouldRetry := None |} tt)).
  simpl. lia.
Defined.

Lemma neatCatchRetry_predicate_scope_witness :
  neatCatchRetry (rejecting (VStr "boom"))
    {| maxRetries := Some 0; delay := None; backoff := None;
       errorTransformer := None; shouldRetry := None |} tt =
  neatCatchRetry (rejecting (VStr "boom"))
    {| maxRetries := Some 0; delay := None; backoff := None;
       errorTransformer := None;
       shouldRetry := Some (λ _ _, Throws (VStr "predicate failed")) |} tt.
Proof.
  apply (neatCatchRetry_predicate_scope (rejecting (VStr "boom"))
           {| maxRetries := Some 0; delay := None; backoff := None;
              errorTransformer := None; shouldRetry := None |}
           (λ _ _, Throws (VStr "predicate failed")) tt).
  intros e n Hn. simpl in Hn. lia.
Defined.

Lemma errorTransformers_toString_idempotent_witness :
  (∃ s, VStr "42" = VStr s) ∧
  errorTransformers.toString (VError "TypeError") (VStr "42") = Returns (VStr "42").
Proof.
  apply (errorTransformers_toString_idempotent (VError "TypeError") (VNum 42)).
  reflexivity.
Defined.

Lemma errorTransformers_toSimpleError_message_witness :
  errorTransformers.toString (VError "TypeError")
    (VObject [("message", VStr "object error"); ("code", VNum 500)]) =
    Returns (VStr "object error") ∧
  errorTransformers.toSimpleError (VError "TypeError")
    (VObject [("message", VStr "object error"); ("code", VNum 500)]) =
    Returns (VObject [("message", VStr "[object Object]")]).
Proof.
  apply (proj2 (errorTransformers_toSimpleError_message (VError "TypeError")
                  (VObject [("message", VStr "object error"); ("code", VNum 500)]))
           [("message", VStr "object error"); ("code", VNum 500)] "object error");
    reflexivity.
Defined.

Lemma errorTransformers_withContext_fields_witness :
  ∃ fields,
    errorTransformers.withContext
      [("userId", VNum 123); ("error", VStr "stale")] (VError "test error") =
      Returns (VObject fields) ∧
    field_lookup fields "error" = Some (VError "test error") ∧
    ∀ k, k ≠ "error" →
         field_lookup fields k =
         field_lookup [("userId", VNum 123); ("error", VStr "stale")] k.
Proof.
  apply (errorTransformers_withContext_fields
           [("userId", VNum 123); ("error", VStr "stale")] (VError "test error")).
  simpl. compute_done.
Defined.

Lemma neatCatchAll_withContext_files_every_failure_witness :
  ∃ batch,
    (neatCatchAll [rejecting VNull; resolving (VStr "a")]
       (Some (errorTransformers.withContext [("operation", VStr "fetch")]))
       [1; 0]%nat tt).1 = Fulfilled batch ∧
    slot (results batch) 0 = None ∧
    ∃ fields, slot (errors batch) 0 = Some (VObject fields) ∧
              field_lookup fields "error" = Some VNull.
Proof.
  destruct (neatCatchAll_withContext_files_every_failure
              [rejecting VNull; resolving (VStr "a")]
              [("operation", VStr "fetch")] [1; 0]%nat tt)
    as (batch & Hrun & Hidx).
  - covered.
  - repeat constructor; discriminate.
  - exists batch. split; [exact Hrun|].
    apply (proj1 (Hidx 0%nat) VNull). reflexivity.
Defined.
